(** * Episode driver and model-driven action policy of the Jericho agents

    A shallow embedding of [agent/agent.py] and [agent/llm.py].

    - Python dictionaries keyed by the step index are [gmap nat _].
    - A Python object is a record; a method is a computation in a state and
      exception monad over the agent object, the outside world and a trace
      of the calls made to the environment.
    - The emulator (Jericho's [FrotzEnv]), the HTTP service and the random
      generator are external: they are an interface ([Externals]) over an
      abstract world state.
    - Texts are ASCII (code points below 128): [\w], [\b], [re.IGNORECASE]
      and [str.strip] are modelled on that range, where Python's tables for
      [str] agree with them. The statements on whole-word matches assume
      [is_ascii] of the reply and of the actions they compare.
    - [print] calls write to standard output only and are left out. *)

From Stdlib Require Import ZArith Ascii String.
From stdpp Require Import gmap strings list pretty.

Set Warnings "-register-all".

(** ** Python exceptions *)

Inductive exn :=
| NotImplementedError
| UnboundLocalError
| RequestException   (* requests.exceptions.RequestException and subclasses *)
| KeyError
| ValueError (msg : string)
| IndexError
| TypeError
| AttributeError.

Inductive result (A : Type) :=
| Ok (a : A)
| Raise (e : exn).
Arguments Ok {A} a.
Arguments Raise {A} e.

(** ** State and exception monad *)

Definition M (S A : Type) : Type := S -> result A * S.

Definition ret {S A} (a : A) : M S A := fun s => (Ok a, s).

Definition bind {S A B} (m : M S A) (k : A -> M S B) : M S B :=
  fun s => match m s with
           | (Ok a, s') => k a s'
           | (Raise e, s') => (Raise e, s')
           end.

Definition raise {S A} (e : exn) : M S A := fun s => (Raise e, s).

(** [try: m except e: h e] *)
Definition try_except {S A} (m : M S A) (h : exn -> M S A) : M S A :=
  fun s => match m s with
           | (Ok a, s') => (Ok a, s')
           | (Raise e, s') => h e s'
           end.

Definition get {S} : M S S := fun s => (Ok s, s).
Definition modify {S} (f : S -> S) : M S unit := fun s => (Ok tt, f s).
Definition lift {S A} (r : result A) : M S A := fun s => (r, s).

Notation "'let!' x ':=' c 'in' k" := (bind c (fun x => k))
  (at level 10, x pattern, c at level 100, k at level 200).
Notation "'run!' c 'in' k" := (bind c (fun _ => k))
  (at level 10, c at level 100, k at level 200).

(** ** JSON values and the Python operations applied to them *)

Inductive json :=
| JNull
| JBool (b : bool)
| JNum (n : Z)
| JStr (s : string)
| JList (l : list json)
| JDict (d : gmap string json).

(** [v[key]] for a string key. *)
Definition getitem_str (v : json) (key : string) : result json :=
  match v with
  | JDict d => match d !! key with
               | Some x => Ok x
               | None => Raise KeyError
               end
  | _ => Raise TypeError
  end.

(** [v[0]]. A dictionary decoded from JSON has string keys only. *)
Definition getitem_0 (v : json) : result json :=
  match v with
  | JList (x :: _) => Ok x
  | JList [] => Raise IndexError
  | JStr (String c _) => Ok (JStr (String c EmptyString))
  | JStr EmptyString => Raise IndexError
  | JDict _ => Raise KeyError
  | _ => Raise TypeError
  end.

(** ** Text operations *)

Definition code (c : ascii) : nat := nat_of_ascii c.

(** [str.isspace] restricted to ASCII texts: TAB..CR, FS..US and the space.
    (Outside ASCII Python strips more: U+0085, U+00A0 and others.) *)
Definition is_space (c : ascii) : bool :=
  let n := code c in
  ((9 <=? n) && (n <=? 13)) || ((28 <=? n) && (n <=? 32)).

Fixpoint lstrip (s : string) : string :=
  match s with
  | String c s' => if is_space c then lstrip s' else s
  | EmptyString => EmptyString
  end.

Fixpoint rstrip (s : string) : string :=
  match s with
  | String c s' =>
      match rstrip s' with
      | EmptyString => if is_space c then EmptyString else String c EmptyString
      | r => String c r
      end
  | EmptyString => EmptyString
  end.

(** [s.strip()] *)
Definition strip (s : string) : string := rstrip (lstrip s).

(** [v.strip()]: only a [str] has the method. *)
Definition json_strip (v : json) : result string :=
  match v with
  | JStr s => Ok (strip s)
  | _ => Raise AttributeError
  end.

(** [\w] restricted to ASCII texts: the letters, the digits and the
    underscore. (Outside ASCII Python's [\w] holds of more letters and
    digits.) *)
Definition is_word (c : ascii) : bool :=
  let n := code c in
  ((48 <=? n) && (n <=? 57)) || ((65 <=? n) && (n <=? 90))
  || ((97 <=? n) && (n <=? 122)) || (n =? 95).

(** The lower case of a character, restricted to ASCII texts: [A-Z] are
    folded. (Outside ASCII [re.IGNORECASE] pairs more characters.) *)
Definition lower (c : ascii) : ascii :=
  let n := code c in
  if (65 <=? n) && (n <=? 90) then ascii_of_nat (n + 32) else c.

(** Equality of two characters under [re.IGNORECASE]. *)
Definition ci_eqb (a b : ascii) : bool := Ascii.eqb (lower a) (lower b).

Definition opt_word (c : option ascii) : bool :=
  match c with
  | Some x => is_word x
  | None => false
  end.

(** [\b] between the character before ([prev], [None] at the start of the
    text) and the character after ([next], [None] at the end). *)
Definition boundary (prev next : option ascii) : bool :=
  xorb (opt_word prev) (opt_word next).

Definition head_char (s : string) : option ascii :=
  match s with
  | String c _ => Some c
  | EmptyString => None
  end.

(** Match the literal [pat] and then [\b] at the front of [s]; [prev] is the
    character just before [s]. *)
Fixpoint match_literal (prev : option ascii) (pat s : string) : bool :=
  match pat with
  | EmptyString => boundary prev (head_char s)
  | String p pat' =>
      match s with
      | String c s' => ci_eqb p c && match_literal (Some c) pat' s'
      | EmptyString => false
      end
  end.

(** The pattern [\b<action>\b] anchored at the front of [s]. *)
Definition match_here (prev : option ascii) (action s : string) : bool :=
  boundary prev (head_char s) && match_literal prev action s.

(** The scan of [re.search]: try every start position, left to right. *)
Fixpoint search_from (prev : option ascii) (action s : string) : bool :=
  match_here prev action s ||
  match s with
  | String c s' => search_from (Some c) action s'
  | EmptyString => false
  end.

(** [re.search(rf"\b{re.escape(action)}\b", raw_response, re.IGNORECASE)],
    as a truth value. *)
Definition re_search (action raw_response : string) : bool :=
  search_from None action raw_response.

(** [lst[k:]] for a Python integer [k]. *)
Definition slice_from {A} (k : Z) (l : list A) : list A :=
  let len := Z.of_nat (length l) in
  let start := if (k <? 0)%Z then Z.max 0 (len + k) else Z.min k len in
  drop (Z.to_nat start) l.

(** ** Data of the agents *)

(** The [info] dictionary of Jericho: [{'moves': int, 'score': int}]. *)
Abbreviation Info := (gmap string Z).

(** One turn of the chat history: [{"role": ..., "content": ...}]. *)
Record message := Message { role : string; content : string }.

Inductive agent_class :=
| Agent_
| WalkThroughAgent
| RandomAgent
| LLMAgent.

(** The constructor arguments that only [LLMAgent] has. *)
Record llm_config := LLMConfig {
  api_key : string;
  model : string;
  max_chat_history_size : Z;
  fallback_to_random : bool;
  timeout : Z
}.

(** The agent object. [info = None] stands for an attribute that was never
    assigned; [config] and [chat_history] are read by [LLMAgent] only. *)
Record agent := AgentObj {
  cls : agent_class;
  max_steps : option Z;
  step : nat;
  observations : gmap nat string;
  actions : gmap nat string;
  rewards : gmap nat Z;
  info : option Info;
  config : llm_config;
  chat_history : list message
}.

Definition set_step (n : nat) (a : agent) : agent :=
  AgentObj (cls a) (max_steps a) n (observations a) (actions a) (rewards a)
           (info a) (config a) (chat_history a).
Definition set_observations (o : gmap nat string) (a : agent) : agent :=
  AgentObj (cls a) (max_steps a) (step a) o (actions a) (rewards a)
           (info a) (config a) (chat_history a).
Definition set_actions (x : gmap nat string) (a : agent) : agent :=
  AgentObj (cls a) (max_steps a) (step a) (observations a) x (rewards a)
           (info a) (config a) (chat_history a).
Definition set_rewards (r : gmap nat Z) (a : agent) : agent :=
  AgentObj (cls a) (max_steps a) (step a) (observations a) (actions a) r
           (info a) (config a) (chat_history a).
Definition set_info (i : option Info) (a : agent) : agent :=
  AgentObj (cls a) (max_steps a) (step a) (observations a) (actions a)
           (rewards a) i (config a) (chat_history a).
Definition set_chat_history (h : list message) (a : agent) : agent :=
  AgentObj (cls a) (max_steps a) (step a) (observations a) (actions a)
           (rewards a) (info a) (config a) h.

(** ** The outside world *)

(** The argument of [requests.post]: the URL, the headers, the two fields of
    the JSON body and the timeout. *)
Record request := Request {
  url : string;
  headers : list (string * string);
  req_model : string;
  req_messages : list message;
  req_timeout : Z
}.

(** An HTTP response: [body = None] when the body is not JSON. *)
Record response := Response { status_code : Z; body : option json }.

(** What the program calls and does not define. Every call threads the
    world state [W]. [requests_post] returns [None] when [requests.post]
    raises (connection error, timeout); [randbelow n] is the draw behind
    [random.choice] on a sequence of length [n], which [random_choice]
    reduces modulo [n] so that any generator draws in range; [repr_list] is
    Python's formatting of a list of strings inside an f-string. The calls
    of the environment are taken not to raise. *)
Class Externals (W : Type) := {
  env_reset : W -> (string * Info) * W;
  env_step : string -> W -> (string * Z * bool * Info) * W;
  env_get_valid_actions : W -> list string * W;
  env_get_walkthrough : W -> list string * W;
  env_close : W -> W;
  requests_post : request -> W -> option response * W;
  randbelow : nat -> W -> nat * W;
  repr_list : list string -> string
}.

(** The calls made to the environment, newest first. *)
Inductive event :=
| EvReset
| EvValidActions (valid_actions : list string)
| EvStep (action observation : string) (reward : Z) (done : bool) (i : Info)
| EvWalkthrough
| EvPost (r : request)
| EvClose.

Record St (W : Type) := State {
  self : agent;
  world : W;
  trace : list event
}.
Arguments State {W} self world trace.
Arguments self {W} s.
Arguments world {W} s.
Arguments trace {W} s.

Definition nl : string := String (ascii_of_nat 10) EmptyString.

(** [self.system_message] of [LLMAgent]; assigned once, in [__init__]. *)
Definition system_message : message :=
  Message "system"
    ("You are an AI agent playing a text-based adventure game. Your goal "
     +:+ "is to maximize your score by solving puzzles, exploring the "
     +:+ "environment, and collecting important items." +:+ nl
     +:+ "Guidelines:" +:+ nl
     +:+ "1. Carefully read and remember descriptions, noting items, locations, "
     +:+ "and potential clues." +:+ nl
     +:+ "2. Maintain awareness of your inventory and use inventory items "
     +:+ "creatively to overcome challenges." +:+ nl
     +:+ "3. Prioritize actions that explore new areas or interact meaningfully "
     +:+ "with your surroundings." +:+ nl
     +:+ "4. Pay attention to hints in textual descriptions that may imply "
     +:+ "hidden puzzles or useful interactions." +:+ nl
     +:+ "5. Avoid repeating actions unless you have new reasons to try "
     +:+ "them." +:+ nl
     +:+ "IMPORTANT: Respond ONLY with the exact action from the provided valid "
     +:+ "actions list.").

Section WithWorld.
Context {W : Type} `{Externals W}.

Abbreviation Act := (M (St W)).

Definition update_self (f : agent -> agent) : Act unit :=
  modify (fun st => State (f (self st)) (world st) (trace st)).

Definition log (e : event) : Act unit :=
  modify (fun st => State (self st) (world st) (e :: trace st)).

(** Call an operation of the world that returns a value. *)
Definition call {A} (f : W -> A * W) : Act A :=
  fun st => let '(a, w) := f (world st) in (Ok a, State (self st) w (trace st)).

(** *** class Agent *)

Definition reset_env : Act unit :=
  run! update_self (set_step 0) in
  run! update_self (set_observations ∅) in
  run! update_self (set_actions ∅) in
  run! update_self (set_rewards ∅) in
  let! (observation, _) := call env_reset in
  run! log EvReset in
  let! st := get in
  update_self (set_observations
                 (<[step (self st) := observation]> (observations (self st)))).

Definition Agent_choose_action (valid_actions : list string) : Act string :=
  raise NotImplementedError.

Definition close_env : Act unit :=
  run! modify (fun st => State (self st) (env_close (world st)) (trace st)) in
  log EvClose.

Definition Agent_update_action (action : string) : Act unit :=
  let! st := get in
  update_self (set_actions (<[step (self st) := action]> (actions (self st)))).

Definition Agent_update_reward (reward : Z) : Act unit :=
  let! st := get in
  update_self (set_rewards (<[step (self st) := reward]> (rewards (self st)))).

Definition Agent_update_observation (observation : string) : Act unit :=
  let! st := get in
  update_self (set_observations
                 (<[step (self st) := observation]> (observations (self st)))).

(** [random.choice(seq)]: [seq[randbelow(len(seq))]], an [IndexError] on
    an empty sequence. *)
Definition random_choice (seq : list string) : Act string :=
  match seq with
  | [] => raise IndexError
  | _ =>
      let! r := call (randbelow (length seq)) in
      match seq !! (r mod length seq) with
      | Some a => ret a
      | None => raise IndexError
      end
  end.

(** *** class RandomAgent *)

Definition RandomAgent_choose_action (valid_actions : list string) : Act string :=
  random_choice valid_actions.

(** *** class LLMAgent *)

(** [self.observations[self.step]] *)
Definition current_observation : Act string :=
let! st := get in
match observations (self st) !! step (self st) with
| Some o => ret o
| None => raise KeyError
end.

Definition append_turn (m : message) : Act unit :=
update_self (fun a => set_chat_history (chat_history a ++ [m]) a).

Definition LLMAgent_init : Act unit :=
run! reset_env in
run! update_self (set_info (Some ∅)) in
run! update_self (set_chat_history [system_message]) in
let! st := get in
let! o := current_observation in
append_turn
  (Message "user" ("Step: " +:+ pretty (step (self st)) +:+ ": Observation: " +:+ o)).

(** [[self.system_message] + self.chat_history[1:][-self.max_chat_history_size * 3 :]] *)
Definition trimmed (window : Z) (h : list message) : list message :=
[system_message] ++ slice_from (- window * 3) (slice_from 1 h).

Definition over_window (window : Z) (h : list message) : bool :=
(Z.of_nat (length h) >? window * 3)%Z.

Definition raise_for_status (r : response) : result unit :=
if ((400 <=? status_code r) && (status_code r <? 600))%Z
then Raise RequestException
else Ok tt.

(** [response.json()] *)
Definition response_json (r : response) : result json :=
match body r with
| Some j => Ok j
| None => Raise RequestException
end.

Definition and_then {A B} (r : result A) (k : A -> result B) : result B :=
match r with
| Ok a => k a
| Raise e => Raise e
end.

(** From the outcome of [requests.post] to the content of the reply:
    [response.raise_for_status()] and
    [response.json()["choices"][0]["message"]["content"]]. *)
Definition message_content (posted : option response) : result json :=
match posted with
| None => Raise RequestException
| Some r =>
    and_then (raise_for_status r) (fun _ =>
    and_then (response_json r) (fun j =>
    and_then (getitem_str j "choices") (fun cs =>
    and_then (getitem_0 cs) (fun c =>
    and_then (getitem_str c "message") (fun m =>
    getitem_str m "content")))))
end.

(** [raw_response]: the content, [.strip()]ped. *)
Definition raw_response_of (posted : option response) : result string :=
and_then (message_content posted) json_strip.

Definition build_request (cfg : llm_config) (messages : list message) : request :=
Request "https://openrouter.ai/api/v1/chat/completions"
        [("Authorization", "Bearer " +:+ api_key cfg);
         ("Content-Type", "application/json");
         ("HTTP-Referer", "http://localhost:8888");
         ("X-Title", "Jericho Agent")]
        (model cfg) messages (timeout cfg).

(** The body of the [try] statement of [choose_action]. *)
Definition try_body (valid_actions : list string) (messages : list message)
  : Act string :=
let! st := get in
let cfg := config (self st) in
let! posted := call (requests_post (build_request cfg messages)) in
run! log (EvPost (build_request cfg messages)) in
let! raw_response := lift (raw_response_of posted) in
match find (fun action => re_search action raw_response) valid_actions with
| Some action => ret action
| None =>
    if fallback_to_random cfg
    then random_choice valid_actions
    else raise (ValueError
                  ("No valid action found in LLM response and fallback_to_random is "
                   +:+ "False. Raw response: " +:+ raw_response))
end.

(** [except (requests.exceptions.RequestException, KeyError, ValueError)] *)
Definition handled (e : exn) : bool :=
match e with
| RequestException | KeyError | ValueError _ => true
| _ => false
end.

(** The turn that asks for an action; it is sent and not kept. *)
Definition question (o : string) (valid_actions : list string) : message :=
Message "user"
  ("Current observation: " +:+ o +:+ nl
   +:+ "Valid actions: " +:+ repr_list valid_actions +:+ nl
   +:+ "Which action do you want to take? Respond with the action only.").

Definition LLMAgent_choose_action (valid_actions : list string) : Act string :=
let! st := get in
let window := max_chat_history_size (config (self st)) in
run! (if over_window window (chat_history (self st))
      then update_self (set_chat_history (trimmed window (chat_history (self st))))
      else ret tt) in
let! st := get in
let! o := current_observation in
let messages := chat_history (self st) ++ [question o valid_actions] in
try_except (try_body valid_actions messages)
  (fun e =>
     if handled e
     then if fallback_to_random (config (self st))
          then random_choice valid_actions
          else raise e
     else raise e).

Definition LLMAgent_update_action (action : string) : Act unit :=
let! st := get in
run! update_self (set_actions (<[step (self st) := action]> (actions (self st)))) in
append_turn
  (Message "assistant"
     ("Step " +:+ pretty (step (self st)) +:+ ": Action: " +:+ action)).

Definition LLMAgent_update_reward (reward : Z) : Act unit :=
let! st := get in
run! update_self (set_rewards (<[step (self st) := reward]> (rewards (self st)))) in
append_turn
  (Message "user"
     ("Step " +:+ pretty (step (self st)) +:+ ": Reward: " +:+ pretty reward)).

Definition LLMAgent_update_observation (observation : string) : Act unit :=
let! st := get in
run! update_self (set_observations
                    (<[step (self st) := observation]> (observations (self st)))) in
append_turn
  (Message "user"
     ("Step " +:+ pretty (step (self st)) +:+ ": Observation: " +:+ observation)).

(** *** Method resolution on the class of [self] *)

Definition choose_action (valid_actions : list string) : Act string :=
let! st := get in
match cls (self st) with
| Agent_ | WalkThroughAgent => Agent_choose_action valid_actions
| RandomAgent => RandomAgent_choose_action valid_actions
| LLMAgent => LLMAgent_choose_action valid_actions
end.

Definition update_action (action : string) : Act unit :=
let! st := get in
match cls (self st) with
| LLMAgent => LLMAgent_update_action action
| _ => Agent_update_action action
end.

Definition update_reward (reward : Z) : Act unit :=
let! st := get in
match cls (self st) with
| LLMAgent => LLMAgent_update_reward reward
| _ => Agent_update_reward reward
end.

Definition update_observation (observation : string) : Act unit :=
let! st := get in
match cls (self st) with
| LLMAgent => LLMAgent_update_observation observation
| _ => Agent_update_observation observation
end.

(** *** The episode drivers *)

(** The local variables of [run] that outlive an iteration. [l_info = None]
    stands for a local that was never bound. *)
Record locals := Locals { l_done : bool; l_info : option Info }.

Inductive ctl :=
| Next (l : locals)
| Break (l : locals).

(** [not done and (not self.max_steps or self.step < self.max_steps)]:
    [None] and [0] are the values of [max_steps] that Python takes as false. *)
Definition loop_cond (l : locals) (a : agent) : bool :=
negb (l_done l) &&
match max_steps a with
| None => true
| Some m => (m =? 0)%Z || (Z.of_nat (step a) <? m)%Z
end.

(** The bookkeeping of one step, the same lines in [Agent.run] and in
    [WalkThroughAgent.run]. *)
Definition take_step (action : string) : Act locals :=
run! update_action action in
let! (observation, reward, d, i) := call (env_step action) in
run! log (EvStep action observation reward d i) in
run! update_self (fun a => set_step (step a + 1) a) in
run! update_reward reward in
run! update_observation observation in
ret (Locals d (Some i)).

Definition loop_body (l : locals) : Act ctl :=
let! valid_actions := call env_get_valid_actions in
run! log (EvValidActions valid_actions) in
if length valid_actions =? 0
then ret (Break l)
else
  let! action := choose_action valid_actions in
  let! l' := take_step action in
  ret (Next l').

(** The [while] loop, cut after [fuel] iterations: [None] when the loop
    would go on. *)
Fixpoint while_loop (fuel : nat) (l : locals) (st : St W)
  : option (result locals) * St W :=
if loop_cond l (self st)
then match fuel with
     | 0 => (None, st)
     | S fuel' =>
         match loop_body l st with
         | (Ok (Next l'), st') => while_loop fuel' l' st'
         | (Ok (Break l'), st') => (Some (Ok l'), st')
         | (Raise e, st') => (Some (Raise e), st')
         end
     end
else (Some (Ok l), st).

(** [self.info = info; self.close_env()] *)
Definition finish (l : locals) : Act unit :=
match l_info l with
| None => raise UnboundLocalError
| Some i =>
    run! update_self (set_info (Some i)) in
    close_env
end.

Definition Agent_run (fuel : nat) (st : St W) : option (result unit) * St W :=
match while_loop fuel (Locals false None) st with
| (None, st') => (None, st')
| (Some (Raise e), st') => (Some (Raise e), st')
| (Some (Ok l), st') => let (r, st'') := finish l st' in (Some r, st'')
end.

(** The [for] loop of [WalkThroughAgent.run]. *)
Fixpoint replay (script : list string) (l : locals) : Act locals :=
match script with
| [] => ret l
| action :: rest =>
    let! l' := take_step action in
    replay rest l'
end.

Definition WalkThroughAgent_run : Act unit :=
let! script := call env_get_walkthrough in
run! log EvWalkthrough in
let! l := replay script (Locals false None) in
finish l.

(** [agent.run()] *)
Definition run (fuel : nat) (st : St W) : option (result unit) * St W :=
match cls (self st) with
| WalkThroughAgent => let (r, st') := WalkThroughAgent_run st in (Some r, st')
| _ => Agent_run fuel st
end.

(** *** Construction *)

(** The object on entry to [__init__], with the constructor arguments. *)
Definition blank (c : agent_class) (ms : option Z) (cfg : llm_config) : agent :=
AgentObj c ms 0 ∅ ∅ ∅ None cfg [].

(** The default values of the [LLMAgent] arguments, for the classes that do
    not read them. *)
Definition no_config : llm_config := LLMConfig "" "" 10 true 10.

Definition init (c : agent_class) : Act unit :=
match c with
| LLMAgent => LLMAgent_init
| _ => reset_env
end.

(** [Agent(env, max_steps)], [RandomAgent(...)], [WalkThroughAgent(...)] and
    [LLMAgent(...)] on the world [w]. *)
Definition new (c : agent_class) (ms : option Z) (cfg : llm_config) (w : W) : St W :=
snd (init c (State (blank c ms cfg) w [])).

End WithWorld.

(** ** A scripted world

    A concrete instance of the interface, for running the program on
    explicit inputs: every call consumes the next scripted answer. *)

Module Scripted.

Record scripted := World {
  first_observation : string;
  valid_script : list (list string);
  step_script : list (string * Z * bool * Info);
  walkthrough : list string;
  post_script : list (option response);
  draws : list nat
}.

Definition reset (w : scripted) : (string * Info) * scripted :=
((first_observation w, ∅), w).

(** Out of script, the game is over. *)
Definition do_step (action : string) (w : scripted)
  : (string * Z * bool * Info) * scripted :=
match step_script w with
| x :: rest =>
    (x, World (first_observation w) (valid_script w) rest (walkthrough w)
              (post_script w) (draws w))
| [] => (("", 0%Z, true, ∅), w)
end.

(** Out of script, no action is legal. *)
Definition valid (w : scripted) : list string * scripted :=
match valid_script w with
| x :: rest =>
    (x, World (first_observation w) rest (step_script w) (walkthrough w)
              (post_script w) (draws w))
| [] => ([], w)
end.

(** Out of script, the connection fails. *)
Definition post (r : request) (w : scripted) : option response * scripted :=
match post_script w with
| x :: rest =>
    (x, World (first_observation w) (valid_script w) (step_script w)
              (walkthrough w) rest (draws w))
| [] => (None, w)
end.

Definition draw (n : nat) (w : scripted) : nat * scripted :=
match draws w with
| x :: rest =>
    (x, World (first_observation w) (valid_script w) (step_script w)
              (walkthrough w) (post_script w) rest)
| [] => (0, w)
end.

(** The formatting of a list of texts that need no escape. *)
Definition repr (l : list string) : string :=
"[" +:+ String.concat ", " (map (fun s => "'" +:+ s +:+ "'") l) +:+ "]".

#[export] Instance externals : Externals scripted := {
  env_reset := reset;
  env_step := do_step;
  env_get_valid_actions := valid;
  env_get_walkthrough := fun w => (walkthrough w, w);
  env_close := fun w => w;
  requests_post := post;
  randbelow := draw;
  repr_list := repr
}.

(** A successful reply of the completion service with the given text. *)
Definition reply (text : string) : option response :=
Some (Response 200
        (Some (JDict {[ "choices" :=
           JList [JDict {[ "message" := JDict {[ "content" := JStr text ]} ]}] ]}))).

End Scripted.

(** ** Notions used in the statements *)

(** Two texts equal up to the case of their letters. *)
Fixpoint ci_equal (a b : string) : bool :=
match a, b with
| EmptyString, EmptyString => true
| String x a', String y b' => ci_eqb x y && ci_equal a' b'
| _, _ => false
end.

(** The last character of [s], or [prev] when [s] is empty. *)
Fixpoint last_char (prev : option ascii) (s : string) : option ascii :=
match s with
| EmptyString => prev
| String c s' => last_char (Some c) s'
end.

(** A text of ASCII characters only. *)
Definition is_ascii (s : string) : bool :=
forallb (fun c => code c <? 128) (list_ascii_of_string s).

(** The small letters, the capital letters in the same order, and the
    characters that make a word. *)
Definition small_letters : list ascii :=
list_ascii_of_string "abcdefghijklmnopqrstuvwxyz".

Definition capital_letters : list ascii :=
list_ascii_of_string "ABCDEFGHIJKLMNOPQRSTUVWXYZ".

Definition word_characters : list ascii :=
small_letters ++ capital_letters ++ list_ascii_of_string "0123456789_".

(** [c] is a letter, a digit or the underscore. *)
Definition word_character (c : ascii) : Prop := In c word_characters.

(** [x] and [y] are one character, or the small and the capital form of one
    letter. *)
Definition same_up_to_case (x y : ascii) : Prop :=
x = y ∨
In (x, y) (combine small_letters capital_letters) ∨
In (y, x) (combine small_letters capital_letters).

(** Two texts of one length whose characters are the same up to case, one
    by one. *)
Definition same_text_up_to_case (a b : string) : Prop :=
Forall2 same_up_to_case (list_ascii_of_string a) (list_ascii_of_string b).

(** The text ends, or starts, with a character of a word. *)
Definition ends_in_word (s : string) : Prop :=
∃ s' c, s = s' +:+ String c EmptyString ∧ word_character c.

Definition starts_with_word (s : string) : Prop :=
∃ c s', s = String c s' ∧ word_character c.

(** A word boundary between two adjacent parts of a text: a character of a
    word on one side of the cut and none on the other. *)
Definition word_boundary (before after : string) : Prop :=
(ends_in_word before ∧ ¬ starts_with_word after) ∨
(¬ ends_in_word before ∧ starts_with_word after).

(** In the words of the specification: the text of [action] appears in
    [response] as a whole word, whatever the case of the letters. The
    response splits as [pre ++ mid ++ post], [mid] is the action up to case,
    and a word boundary stands on each side of [mid]. *)
Definition whole_word_match (action response : string) : Prop :=
∃ pre mid post : string,
  response = pre +:+ mid +:+ post ∧
  same_text_up_to_case action mid ∧
  word_boundary pre (mid +:+ post) ∧
  word_boundary (pre +:+ mid) post.

(** The 256 characters, and the two relations above as computations, to
    compare them with the tables of the code by enumeration. *)
Definition all_characters : list ascii := map ascii_of_nat (seq 0 256).

Definition word_character_b (c : ascii) : bool :=
existsb (Ascii.eqb c) word_characters.

Definition same_up_to_case_b (x y : ascii) : bool :=
Ascii.eqb x y ||
existsb (fun p => (Ascii.eqb x p.1 && Ascii.eqb y p.2) ||
                  (Ascii.eqb y p.1 && Ascii.eqb x p.2))
        (combine small_letters capital_letters).

(** The chat history as [choose_action] leaves it. *)
Definition trim (window : Z) (h : list message) : list message :=
if over_window window h then trimmed window h else h.

(** The request that [choose_action] sends from the state [st]. *)
Definition request_of {W} `{Externals W} (st : St W) (valid_actions : list string)
  (o : string) : request :=
build_request (config (self st))
  (trim (max_chat_history_size (config (self st))) (chat_history (self st))
   ++ [question o valid_actions]).

Section Notions.
Context {W : Type} `{Externals W}.

(** The turns that the bookkeeping of one step appends for an [LLMAgent]. *)
Definition step_turns (n : nat) (action observation : string) (reward : Z)
  : list message :=
[Message "assistant" ("Step " +:+ pretty n +:+ ": Action: " +:+ action);
 Message "user" ("Step " +:+ pretty (n + 1) +:+ ": Reward: " +:+ pretty reward);
 Message "user" ("Step " +:+ pretty (n + 1) +:+ ": Observation: " +:+ observation)].

(** The state that [take_step action] leaves. *)
Definition stepped (action : string) (st : St W) : St W :=
let '(o, r, d, i, w') := env_step action (world st) in
let a := self st in
let n := step a in
State (AgentObj (cls a) (max_steps a) (n + 1)
                (<[n + 1 := o]> (observations a))
                (<[n := action]> (actions a))
                (<[n + 1 := r]> (rewards a))
                (info a) (config a)
                (match cls a with
                 | LLMAgent => chat_history a ++ step_turns n action o r
                 | _ => chat_history a
                 end))
      w' (EvStep action o r d i :: trace st).

(** The local variables that [take_step action] returns. *)
Definition step_locals (action : string) (st : St W) : locals :=
let '(_, _, d, i, _) := env_step action (world st) in Locals d (Some i).

(** The state in which [choose_action] waits for the reply: the history
    trimmed, the request sent. *)
Definition asked (valid_actions : list string) (o : string) (st : St W) : St W :=
let req := request_of st valid_actions o in
State (set_chat_history
         (trim (max_chat_history_size (config (self st))) (chat_history (self st)))
         (self st))
      (snd (requests_post req (world st)))
      (EvPost req :: trace st).

(** The reply to the request of [choose_action]. *)
Definition posted (valid_actions : list string) (o : string) (st : St W)
  : option response :=
fst (requests_post (request_of st valid_actions o) (world st)).

(** The info of the newest [env.step] call of a trace. *)
Fixpoint last_step_info (tr : list event) : option Info :=
match tr with
| EvStep _ _ _ _ i :: _ => Some i
| _ :: rest => last_step_info rest
| [] => None
end.

(** The keys of the three logs at a step boundary. *)
Definition logs_at (n : nat) (a : agent) : Prop :=
dom (actions a) = set_seq 0 n ∧
dom (rewards a) = set_seq 1 n ∧
dom (observations a) = set_seq 0 (S n).

End Notions.

Section TraceNotions.
Context {W : Type} `{Externals W}.

(** What the loop of [Agent.run] keeps true of the trace before every
  iteration: the environment is open, no empty set of legal actions was
  seen, and the local [info] is the info of the newest step, unbound while
  there was none. *)
Definition loop_inv (l : locals) (st : St W) : Prop :=
(EvClose ∉ trace st) ∧
(EvValidActions [] ∉ trace st) ∧
l_info l = last_step_info (trace st).

(** What is true of the trace however the loop ends. *)
Definition loop_post (out : option (result locals)) (st : St W) : Prop :=
(EvClose ∉ trace st) ∧
match out with
| Some (Ok l) =>
    l_info l = last_step_info (trace st) ∧
    (EvValidActions [] ∈ trace st → ∃ tr, trace st = EvValidActions [] :: tr)
| Some (Raise e) => (EvValidActions [] ∉ trace st) ∧ e ≠ UnboundLocalError
| None => True
end.

End TraceNotions.

(** ** Sample episodes on the scripted world *)

Module Samples.
Import Scripted.

Definition info_after (moves score : Z) : Info :=
<["moves" := moves]> {["score" := score]}.

(** Two steps can be taken; then no action is legal. The service answers
    twice. *)
Definition two_steps : scripted :=
World "West of House"
      [["go north"; "north"]; ["open door"; "wait"]]
      [("North of House", 0%Z, false, info_after 1 0);
       ("Forest", 5%Z, false, info_after 2 5)]
      ["north"; "wait"]
      [reply "I will go north now"; reply "I think I should wait here"]
      [1; 0].

(** No action is legal from the start. *)
Definition dead_end : scripted :=
World "Dead end" [] [] [] [] [].

(** The service cannot be reached. *)
Definition offline : scripted :=
World "West of House" [["north"; "south"]]
      [("North of House", 0%Z, false, info_after 1 0)] [] [] [].

(** The service answers [{"choices": [{"message": {"content": null}}]}]. *)
Definition null_content : scripted :=
World "West of House" [["north"; "south"]]
      [("North of House", 0%Z, false, info_after 1 0)] []
      [Some (Response 200
         (Some (JDict {[ "choices" :=
            JList [JDict {[ "message" := JDict {[ "content" := JNull ]} ]}] ]})))]
      [].

(** The service answers [{"choices": []}]. *)
Definition no_choices : scripted :=
World "West of House" [["north"; "south"]]
      [("North of House", 0%Z, false, info_after 1 0)] []
      [Some (Response 200 (Some (JDict {[ "choices" := JList [] ]})))]
      [].

(** The service answers in capitals, and names two longer words that hold
    the text of an action. *)
Definition capitals : scripted :=
World "West of House" [["south"; "key"; "go north"; "north"]]
      [("North of House", 0%Z, false, info_after 1 0)] []
      [reply "I will GO North now, not south_1 (key2)."] [].

Definition llm (window : Z) (fallback : bool) : llm_config :=
LLMConfig "key" "meta-llama/llama-3.2-1b-instruct" window fallback 10.

End Samples.

(** The shape of a chat history: the system turn, then turns of the other
    roles only. *)
Definition history_ok (h : list message) : Prop :=
∃ t, h = system_message :: t ∧ Forall (fun m => role m ≠ "system") t.

(** Rules out the members of an explicit trace one by one. *)
Ltac not_in_trace :=
  let Hin := fresh "Hin" in
  vm_compute; intros Hin;
  repeat (apply elem_of_cons in Hin as [Hin|Hin]; [discriminate Hin|]);
  by apply elem_of_nil in Hin.

(** ** Readings of a trace *)

(** The [done] flags that [env.step] returned, newest first. *)
Fixpoint steps_done (tr : list event) : list bool :=
match tr with
| EvStep _ _ _ d _ :: rest => d :: steps_done rest
| _ :: rest => steps_done rest
| [] => []
end.

(** The action, the observation and the reward of every [env.step] call,
    newest first. *)
Fixpoint step_events (tr : list event) : list (string * string * Z) :=
match tr with
| EvStep a o r _ _ :: rest => (a, o, r) :: step_events rest
| _ :: rest => step_events rest
| [] => []
end.

(** Every [env.step] call of the trace passes an action of the answer to
    the call of [env.get_valid_actions] made just before it, the request to
    the service apart. *)
Fixpoint legal_steps (tr : list event) : Prop :=
match tr with
| EvStep a _ _ _ _ :: rest =>
    match rest with
    | EvValidActions va :: _ => a ∈ va
    | EvPost _ :: EvValidActions va :: _ => a ∈ va
    | _ => False
    end ∧ legal_steps rest
| _ :: rest => legal_steps rest
| [] => True
end.

(** The logs of the agent against the steps of the trace, in the order they
  were taken. *)
Definition logs_follow (a : agent) (tr : list event) : Prop :=
length (step_events tr) = step a ∧
∀ (k : nat) (action observation : string) (reward : Z),
  reverse (step_events tr) !! k = Some (action, observation, reward) →
  actions a !! k = Some action ∧
  rewards a !! (k + 1) = Some reward ∧
  observations a !! (k + 1) = Some observation.

(** ** The harness: [run-agent.py] and [utils.py] *)

(** [s.split(sep)] for a separator of one character. *)
Fixpoint split (sep : ascii) (s : string) : list string :=
match s with
| EmptyString => [EmptyString]
| String c s' =>
    if Ascii.eqb c sep
    then EmptyString :: split sep s'
    else match split sep s' with
         | x :: rest => String c x :: rest
         | [] => [String c EmptyString]
         end
end.

(** [l[-1]] *)
Definition getitem_last (l : list string) : result string :=
match last l with
| Some x => Ok x
| None => Raise IndexError
end.

(** [l[0]] *)
Definition getitem_first (l : list string) : result string :=
match l with
| x :: _ => Ok x
| [] => Raise IndexError
end.

Definition slash : ascii := ascii_of_nat 47.
Definition dot : ascii := ascii_of_nat 46.

(** [game_path.split("/")[-1].split(".")[0]], the body of [get_game_name]
    and the expression that [get_game_paths] filters on. *)
Definition get_game_name (game_path : string) : result string :=
and_then (getitem_last (split slash game_path))
         (fun base => getitem_first (split dot base)).

Definition possible_games : list string :=
["905"; "acorncourt"; "advent"; "adventureland"; "afflicted"; "anchor";
 "awaken"; "balances"; "deephome"; "detective"; "dragon"; "enchanter";
 "gold"; "inhumane"; "jewel"; "karn"; "library"; "ludicorp"; "moonlit";
 "omniquest"; "pentari"; "reverb"; "snacktime"; "sorcerer"; "spellbrkr";
 "spirit"; "temple"; "tryst205"; "yomomma"; "zenon"; "zork1"; "zork3";
 "ztuu"].

(** [[game_path for game_path in game_paths if <name> in possible_games]] *)
Fixpoint only_possible (game_paths : list string) : result (list string) :=
match game_paths with
| [] => Ok []
| game_path :: rest =>
    and_then (get_game_name game_path) (fun name =>
    and_then (only_possible rest) (fun kept =>
    Ok (if bool_decide (name ∈ possible_games)
        then game_path :: kept else kept)))
end.

(** [get_game_paths(only_33)] on the answer [globbed] of [glob]. *)
Definition get_game_paths (only_33 : bool) (globbed : list string)
  : result (list string) :=
if only_33 then only_possible globbed else Ok globbed.

(** [sum(agent.rewards.values())] *)
Definition total_reward (a : agent) : Z :=
map_fold (fun _ reward acc => (acc + reward)%Z) 0%Z (rewards a).

(** One entry of [results]. *)
Record game_result := GameResult {
  r_agent : string;
  r_game_path : string;
  r_max_steps : option Z;
  r_steps : nat;
  r_num_observations : nat;
  r_num_actions : nat;
  r_num_rewards : nat;
  r_total_reward : Z;
  r_max_score : Z;
  r_info : Info
}.

(** [agent.__class__.__name__] *)
Definition class_name (c : agent_class) : string :=
match c with
| Agent_ => "Agent"
| WalkThroughAgent => "WalkThroughAgent"
| RandomAgent => "RandomAgent"
| LLMAgent => "LLMAgent"
end.

(** The arguments of [run_games]. *)
Record arguments := Arguments_ {
  agent_type : string;
  arg_max_steps : option Z;
  only_33 : bool;
  output_file : string;
  arg_api_key : option string;
  arg_model : option string;
  arg_max_chat_history_size : Z;
  arg_fallback_to_random : bool;
  arg_timeout : Z
}.

(** What the harness calls besides the agents: [glob] on the directory of
    the games, [create_game] (the new emulator becomes the environment of
    the world) and [env.get_max_score]. *)
Class Harness (W : Type) := {
  glob : W -> list string * W;
  create_game : string -> W -> W;
  env_get_max_score : W -> Z * W
}.

(** The world and the contents written to the output file, newest first. *)
Record HSt (W : Type) := HState {
  h_world : W;
  h_written : list (string * gmap string game_result)
}.
Arguments HState {W} h_world h_written.
Arguments h_world {W} h.
Arguments h_written {W} h.

Section WithHarness.
Context {W : Type} `{Externals W} `{Harness W}.

(** The [if]/[elif] chain that builds the agent; [not api_key or not model]
    holds of [None] and of the empty text. *)
Definition make_agent (args : arguments) (w : W) : result (St W) :=
if String.eqb (agent_type args) "RandomAgent"
then Ok (new RandomAgent (arg_max_steps args) no_config w)
else if String.eqb (agent_type args) "WalkThroughAgent"
then Ok (new WalkThroughAgent (arg_max_steps args) no_config w)
else if String.eqb (agent_type args) "LLMAgent"
then match arg_api_key args, arg_model args with
     | Some (String k key), Some (String m name) =>
         Ok (new LLMAgent (arg_max_steps args)
               (LLMConfig (String k key) (String m name)
                          (arg_max_chat_history_size args)
                          (arg_fallback_to_random args) (arg_timeout args)) w)
     | _, _ => Raise (ValueError "API key and model must be specified for LLMAgent")
     end
else Raise (ValueError ("Unknown agent type: " +:+ agent_type args)).

(** The [result] dictionary of a game; [agent.info] is read last. *)
Definition record_of (game_path : string) (a : agent) (max_score : Z)
  : result game_result :=
match info a with
| None => Raise AttributeError
| Some i =>
    Ok (GameResult (class_name (cls a)) game_path (max_steps a) (step a)
                   (size (observations a)) (size (actions a)) (size (rewards a))
                   (total_reward a) max_score i)
end.

(** The body of the loop of [run_games] for one game; [None] when the
    episode does not end within [fuel] iterations. The environment is asked
    for the maximal score for the record and again, with the walkthrough,
    for the report that is printed. *)
Definition play_game (fuel : nat) (args : arguments) (game_path : string)
    (results : gmap string game_result) (hs : HSt W)
  : option (result (gmap string game_result)) * HSt W :=
let w1 := create_game game_path (h_world hs) in
match make_agent args w1 with
| Raise e => (Some (Raise e), HState w1 (h_written hs))
| Ok st0 =>
    match run fuel st0 with
    | (None, st1) => (None, HState (world st1) (h_written hs))
    | (Some (Raise e), st1) => (Some (Raise e), HState (world st1) (h_written hs))
    | (Some (Ok _), st1) =>
        let (max_score, w2) := env_get_max_score (world st1) in
        match record_of game_path (self st1) max_score with
        | Raise e => (Some (Raise e), HState w2 (h_written hs))
        | Ok rec =>
            match get_game_name game_path with
            | Raise e => (Some (Raise e), HState w2 (h_written hs))
            | Ok name =>
                let results' := <[name := rec]> results in
                let w3 := snd (env_get_max_score w2) in
                let w4 := snd (env_get_walkthrough w3) in
                (Some (Ok results'),
                 HState w4 ((output_file args, results') :: h_written hs))
            end
        end
    end
end.

(** The [for] loop of [run_games]. *)
Fixpoint games_loop (fuel : nat) (args : arguments) (game_paths : list string)
    (results : gmap string game_result) (hs : HSt W)
  : option (result (gmap string game_result)) * HSt W :=
match game_paths with
| [] => (Some (Ok results), hs)
| game_path :: rest =>
    match play_game fuel args game_path results hs with
    | (Some (Ok results'), hs') => games_loop fuel args rest results' hs'
    | out => out
    end
end.

(** [run_games(...)]: the outcome, with the final [results], and the
    writes. *)
Definition run_games (fuel : nat) (args : arguments) (w : W)
  : option (result (gmap string game_result)) * HSt W :=
let (globbed, w0) := glob w in
match get_game_paths (only_33 args) globbed with
| Raise e => (Some (Raise e), HState w0 [])
| Ok game_paths => games_loop fuel args game_paths ∅ (HState w0 [])
end.

End WithHarness.

(** [c in s] *)
Fixpoint has_char (c : ascii) (s : string) : bool :=
match s with
| EmptyString => false
| String x s' => Ascii.eqb x c || has_char c s'
end.

(** The counts of a record agree with its number of steps. *)
Definition consistent (r : game_result) : Prop :=
r_num_rewards r = r_num_actions r ∧
r_num_actions r = r_steps r ∧
r_num_observations r = r_steps r + 1.

(** The sum of the rewards that [env.step] returned. *)
Definition sum_step_rewards (tr : list event) : Z :=
foldr (fun x acc => (x.2 + acc)%Z) 0%Z (step_events tr).

(** ** More sample inputs *)

Module MoreSamples.
Import Scripted Samples.

(** The service answers with blanks. *)
Definition blank_reply : scripted :=
World "West of House" [["north"; "south"]]
      [("North of House", 0%Z, false, info_after 1 0)] []
      [reply "   "] [1].

(** The service names the last of three actions; the second is empty. *)
Definition wait_reply : scripted :=
World "West of House" [["open door"; ""; "wait"]]
      [("North of House", 0%Z, false, info_after 1 0)] []
      [reply "I think I should wait here"] [].

(** The game is over after the first step. *)
Definition one_step_game : scripted :=
World "West of House" [["north"; "south"]; ["north"]]
      [("You have won", 10%Z, true, info_after 1 10);
       ("Nothing happens", 0%Z, false, info_after 2 10)]
      ["north"; "north"] [] [0; 0].

(** A directory with one of the 33 games and one other file; every game
    that is created follows the script of the world. *)
#[export] Instance harness : Harness scripted := {
  glob := fun w => (["./z-machine-games-master/jericho-game-suite/zork1.z5";
                     "./z-machine-games-master/jericho-game-suite/README.md"], w);
  create_game := fun _ w => w;
  env_get_max_score := fun w => (350%Z, w)
}.

Definition random_args : arguments :=
Arguments_ "RandomAgent" None true "results.json" None None 10 true 10.

Definition unknown_args : arguments :=
Arguments_ "GreedyAgent" None true "results.json" None None 10 true 10.

End MoreSamples.

(** * Theorems *)

(** ** Text matching *)

Example re_search_go_north :
  re_search "go north" "I will go north now" = true.
Proof. reflexivity. Qed.

Example re_search_substring_rejected :
  re_search "north" "northern lights" = false.
Proof. reflexivity. Qed.

Example re_search_ignores_case :
  re_search "wait" "I think I should WAIT here" = true.
Proof. reflexivity. Qed.

Example strip_example : strip ("  go north" +:+ nl +:+ " ") = "go north".
Proof. reflexivity. Qed.

Example slice_minus_zero : slice_from (- 0 * 3) [1; 2; 3] = [1; 2; 3].
Proof. reflexivity. Qed.

Example slice_last_three : slice_from (- 1 * 3) [1; 2; 3; 4; 5] = [3; 4; 5].
Proof. reflexivity. Qed.

Example word_characters_of_the_code :
  is_word "a" = true ∧ is_word "Z" = true ∧ is_word "0" = true ∧
  is_word "9" = true ∧ is_word "_" = true ∧
  is_word " " = false ∧ is_word "-" = false ∧ is_word "'" = false.
Proof. repeat split. Qed.

Example digits_and_underscore_continue_a_word :
  re_search "key" "take key2" = false ∧
  re_search "key" "take key_a" = false ∧
  re_search "key" "take 2key" = false ∧
  re_search "key" "take key-2" = true ∧
  re_search "key" "take key" = true.
Proof. repeat split. Qed.

Example re_search_ignores_the_case_of_letters :
  re_search "North" "go north" = true ∧
  re_search "north" "Go NORTH!" = true ∧
  re_search "north" "go n0rth" = false.
Proof. repeat split. Qed.

Example re_search_needs_both_boundaries :
  re_search "north" "gonorth" = false ∧ re_search "north" "north-east" = true.
Proof. split; reflexivity. Qed.


Lemma ci_equal_empty_l (s : string) : ci_equal EmptyString s = true ↔ s = EmptyString.
Proof. destruct s; simpl; split; congruence. Qed.

Lemma append_empty_l (s : string) : EmptyString +:+ s = s.
Proof. reflexivity. Qed.

Lemma append_cons (c : ascii) (a b : string) :
  String c a +:+ b = String c (a +:+ b).
Proof. reflexivity. Qed.

Lemma match_literal_spec (pat : string) :
  ∀ (prev : option ascii) (s : string),
    match_literal prev pat s = true ↔
    ∃ mid post : string,
      s = mid +:+ post ∧ ci_equal pat mid = true ∧
      boundary (last_char prev mid) (head_char post) = true.
Proof.
  induction pat as [|p pat IH]; intros prev s; simpl.
  - split.
    + intros Hb. exists EmptyString, s. auto.
    + intros (mid & post & -> & Hm & Hb).
      apply ci_equal_empty_l in Hm. subst mid. exact Hb.
  - destruct s as [|c s].
    + split; [discriminate|].
      intros (mid & post & Hs & Hm & _).
      destruct mid; simpl in *; discriminate.
    + rewrite andb_true_iff, IH. split.
      * intros (Hc & mid & post & -> & Hm & Hb).
        exists (String c mid), post. rewrite append_cons. simpl. rewrite Hc, Hm. auto.
      * intros (mid & post & Hs & Hm & Hb).
        destruct mid as [|c' mid]; [discriminate|].
        rewrite ?append_empty_l, ?append_cons in Hs. injection Hs as <- ->.
        simpl in Hm. apply andb_true_iff in Hm as [Hc Hm].
        split; [exact Hc|]. exists mid, post. auto.
Qed.

Lemma search_from_spec (action s : string) :
  ∀ prev : option ascii,
    search_from prev action s = true ↔
    ∃ pre mid post : string,
      s = pre +:+ mid +:+ post ∧ ci_equal action mid = true ∧
      boundary (last_char prev pre) (head_char (mid +:+ post)) = true ∧
      boundary (last_char prev (pre +:+ mid)) (head_char post) = true.
Proof.
  induction s as [|c s IH]; intros prev.
  - simpl. rewrite orb_false_r. unfold match_here.
    rewrite andb_true_iff, match_literal_spec. split.
    + intros (Hb & mid & post & Hs & Hm & Hb').
      exists EmptyString, mid, post. rewrite !append_empty_l. simpl. rewrite <- Hs. auto.
    + intros (pre & mid & post & Hs & Hm & Hb & Hb').
      destruct pre; [|discriminate]. rewrite ?append_empty_l, ?append_cons in *; simpl in *.
      rewrite <- Hs in Hb. split; [exact Hb|]. exists mid, post. auto.
  - cbn [search_from]. rewrite orb_true_iff. unfold match_here.
    rewrite andb_true_iff, match_literal_spec, IH. split.
    + intros [(Hb & mid & post & Hs & Hm & Hb') | (pre & mid & post & Hs & Hm & Hb & Hb')].
      * exists EmptyString, mid, post. rewrite !append_empty_l. simpl. rewrite <- Hs. auto.
      * exists (String c pre), mid, post. rewrite !append_cons. simpl. rewrite Hs. auto.
    + intros (pre & mid & post & Hs & Hm & Hb & Hb').
      destruct pre as [|c' pre].
      * left. rewrite ?append_empty_l, ?append_cons in *; simpl in *. rewrite <- Hs in Hb. split; [exact Hb|]. exists mid, post. auto.
      * right. rewrite ?append_empty_l, ?append_cons in Hs. injection Hs as <- ->. exists pre, mid, post. auto.
Qed.

(** *** The tables of the code against the notions of the statements *)

Lemma all_characters_complete (c : ascii) : In c all_characters.
Proof.
  unfold all_characters. rewrite <- (ascii_nat_embedding c).
  apply in_map, in_seq. pose proof (nat_ascii_bounded c). lia.
Qed.

Lemma word_character_b_spec (c : ascii) :
  word_character_b c = true ↔ word_character c.
Proof.
  unfold word_character_b, word_character. rewrite existsb_exists. split.
  - intros (x & Hx & Heq). apply Ascii.eqb_eq in Heq. by subst.
  - intros Hc. exists c. split; [done|]. by apply Ascii.eqb_eq.
Qed.

Lemma is_word_table :
  forallb (fun c => Bool.eqb (is_word c) (word_character_b c)) all_characters = true.
Proof. vm_compute. reflexivity. Qed.

(** [\w] of the code holds exactly of the letters, the digits and the
    underscore. *)
Lemma is_word_spec (c : ascii) : is_word c = true ↔ word_character c.
Proof.
  rewrite <- word_character_b_spec.
  pose proof is_word_table as H. rewrite forallb_forall in H.
  specialize (H c (all_characters_complete c)). apply Bool.eqb_prop in H.
  by rewrite H.
Qed.

Lemma same_up_to_case_b_spec (x y : ascii) :
  same_up_to_case_b x y = true ↔ same_up_to_case x y.
Proof.
  unfold same_up_to_case_b, same_up_to_case.
  rewrite orb_true_iff, Ascii.eqb_eq, existsb_exists. split.
  - intros [->|([a b] & Hin & Hp)]; [by left|]. simpl in Hp.
    rewrite orb_true_iff, !andb_true_iff, !Ascii.eqb_eq in Hp.
    destruct Hp as [[-> ->]|[-> ->]]; auto.
  - intros [->|[Hin|Hin]]; [by left| |].
    + right. exists (x, y). split; [done|]. simpl.
      rewrite orb_true_iff, !andb_true_iff, !Ascii.eqb_eq. auto.
    + right. exists (y, x). split; [done|]. simpl.
      rewrite orb_true_iff, !andb_true_iff, !Ascii.eqb_eq. auto.
Qed.

Lemma ci_eqb_table :
  forallb (fun x =>
    forallb (fun y => Bool.eqb (ci_eqb x y) (same_up_to_case_b x y)) all_characters)
    all_characters = true.
Proof. vm_compute. reflexivity. Qed.

(** The comparison of the code under [re.IGNORECASE] holds exactly of one
    character twice and of the two forms of one letter. *)
Lemma ci_eqb_spec (x y : ascii) : ci_eqb x y = true ↔ same_up_to_case x y.
Proof.
  rewrite <- same_up_to_case_b_spec.
  pose proof ci_eqb_table as H. rewrite forallb_forall in H.
  specialize (H x (all_characters_complete x)). rewrite forallb_forall in H.
  specialize (H y (all_characters_complete y)). apply Bool.eqb_prop in H.
  by rewrite H.
Qed.

Lemma ci_equal_same_text (a b : string) :
  ci_equal a b = true ↔ same_text_up_to_case a b.
Proof.
  unfold same_text_up_to_case. revert b.
  induction a as [|x a IH]; intros [|y b]; simpl.
  - split; [constructor|done].
  - split; [done|]. intros H. inversion H.
  - split; [done|]. intros H. inversion H.
  - rewrite andb_true_iff, ci_eqb_spec, IH. split.
    + intros [Hx Ha]. by constructor.
    + intros H. by inversion H.
Qed.

Lemma last_char_snoc (s : string) (c : ascii) :
  ∀ prev, last_char prev (s +:+ String c EmptyString) = Some c.
Proof. induction s as [|x s IH]; intros prev; [done|]. rewrite append_cons. simpl. apply IH. Qed.

Lemma last_char_cases (s : string) :
  ∀ prev, (s = EmptyString ∧ last_char prev s = prev) ∨
          ∃ s' c, s = s' +:+ String c EmptyString ∧ last_char prev s = Some c.
Proof.
  induction s as [|x s IH]; intros prev; [by left|]. right. simpl.
  destruct (IH (Some x)) as [[-> Hl]|(s' & c & -> & Hl)].
  - exists EmptyString, x. by rewrite append_empty_l.
  - exists (String x s'), c. by rewrite append_cons.
Qed.

Lemma ends_in_word_spec (s : string) :
  opt_word (last_char None s) = true ↔ ends_in_word s.
Proof.
  unfold ends_in_word. split.
  - destruct (last_char_cases s None) as [[-> Hl]|(s' & c & -> & Hl)].
    + simpl. discriminate.
    + rewrite Hl. simpl. rewrite is_word_spec. eauto.
  - intros (s' & c & -> & Hc). rewrite last_char_snoc. simpl. by rewrite is_word_spec.
Qed.

Lemma starts_with_word_spec (s : string) :
  opt_word (head_char s) = true ↔ starts_with_word s.
Proof.
  unfold starts_with_word. destruct s as [|c s]; simpl.
  - split; [discriminate|]. by intros (c & s' & ? & _).
  - rewrite is_word_spec. split; [eauto|].
    intros (c' & s' & Heq & Hc). by injection Heq as -> ->.
Qed.

(** [\b] of the code between two adjacent parts of a text. *)
Lemma boundary_word_boundary (before after : string) :
  boundary (last_char None before) (head_char after) = true ↔
  word_boundary before after.
Proof.
  unfold boundary, word_boundary.
  rewrite <- ends_in_word_spec, <- starts_with_word_spec.
  destruct (opt_word (last_char None before)), (opt_word (head_char after));
    simpl; intuition congruence.
Qed.

(** The search of the code finds exactly the whole-word matches of the
    specification. *)
Lemma re_search_whole_word (action response : string) :
  re_search action response = true ↔ whole_word_match action response.
Proof.
  unfold re_search, whole_word_match. rewrite search_from_spec.
  split; intros (pre & mid & post & Hs & Hm & Hb & Hb'); exists pre, mid, post.
  - by rewrite <- ci_equal_same_text, <- !boundary_word_boundary.
  - by rewrite ci_equal_same_text, !boundary_word_boundary.
Qed.

Lemma find_first {A} (f : A → bool) (earlier later : list A) (x : A) :
  f x = true → (∀ y, y ∈ earlier → f y = false) →
  find f (earlier ++ x :: later) = Some x.
Proof.
  intros Hx. induction earlier as [|y earlier IH]; intros Hno; simpl.
  - by rewrite Hx.
  - rewrite (Hno y) by apply list_elem_of_here.
    apply IH. intros z Hz. apply Hno. by apply list_elem_of_further.
Qed.

(** *** Stripping the reply does not change what matches *)

Lemma space_not_word (c : ascii) : is_space c = true → is_word c = false.
Proof. destruct c as [[] [] [] [] [] [] [] []]; vm_compute; congruence. Qed.

Lemma match_literal_prev (p1 p2 : option ascii) (pat s : string) :
  opt_word p1 = opt_word p2 → match_literal p1 pat s = match_literal p2 pat s.
Proof. intros Hp. destruct pat; simpl; [|done]. unfold boundary. by rewrite Hp. Qed.

Lemma match_here_prev (p1 p2 : option ascii) (action s : string) :
  opt_word p1 = opt_word p2 → match_here p1 action s = match_here p2 action s.
Proof.
  intros Hp. unfold match_here, boundary.
  by rewrite Hp, (match_literal_prev p1 p2).
Qed.

Lemma search_from_prev (p1 p2 : option ascii) (action s : string) :
  opt_word p1 = opt_word p2 → search_from p1 action s = search_from p2 action s.
Proof. intros Hp. destruct s; simpl; by rewrite (match_here_prev p1 p2). Qed.

Lemma search_lstrip (action s : string) :
  ∀ prev, opt_word prev = false →
    search_from prev action (lstrip s) = search_from prev action s.
Proof.
  induction s as [|c s IH]; intros prev Hprev; [done|].
  cbn [lstrip]. destruct (is_space c) eqn:Hc; [|done].
  cbn [search_from]. unfold match_here at 1, boundary at 1. cbn [head_char opt_word].
  rewrite Hprev, (space_not_word c Hc). cbn [xorb andb orb].
  rewrite <- (IH (Some c)) by (apply space_not_word; done).
  apply search_from_prev. simpl. by rewrite Hprev, space_not_word.
Qed.

Lemma rstrip_cons (c : ascii) (s : string) :
  rstrip (String c s) =
  match rstrip s with
  | EmptyString => if is_space c then EmptyString else String c EmptyString
  | r => String c r
  end.
Proof. reflexivity. Qed.

(** A text that strips to nothing is blank. *)
Lemma rstrip_blank (c : ascii) (s : string) :
  rstrip (String c s) = EmptyString → is_space c = true ∧ rstrip s = EmptyString.
Proof.
  rewrite rstrip_cons. destruct (rstrip s); [|discriminate].
  by destruct (is_space c).
Qed.

Lemma opt_word_head_rstrip (s : string) :
  opt_word (head_char (rstrip s)) = opt_word (head_char s).
Proof.
  destruct s as [|c s]; [done|]. rewrite rstrip_cons.
  destruct (rstrip s); [|done].
  destruct (is_space c) eqn:Hc; [|done]. simpl. by rewrite space_not_word.
Qed.

Lemma match_literal_blank (s : string) :
  ∀ prev pat, rstrip s = EmptyString →
    match_literal prev pat s = match_literal prev pat EmptyString.
Proof.
  induction s as [|c s IH]; intros prev pat Hb; [done|].
  apply rstrip_blank in Hb as [Hc Hs].
  destruct pat as [|p pat]; simpl.
  - unfold boundary. simpl. by rewrite space_not_word.
  - rewrite (IH (Some c) pat Hs).
    destruct pat; simpl; [|apply andb_false_r].
    unfold boundary. simpl. rewrite space_not_word by done. apply andb_false_r.
Qed.

Lemma match_literal_rstrip (s : string) :
  ∀ prev pat, match_literal prev pat (rstrip s) = match_literal prev pat s.
Proof.
  induction s as [|c s IH]; intros prev pat; [done|].
  destruct (rstrip (String c s)) as [|c' r] eqn:Hr.
  - symmetry. by apply match_literal_blank.
  - rewrite rstrip_cons in Hr.
    assert (c' = c ∧ r = rstrip s) as [-> ->].
    { destruct (rstrip s); [destruct (is_space c)|]; by simplify_eq. }
    destruct pat as [|p pat]; simpl; [done|]. by rewrite IH.
Qed.

Lemma match_here_rstrip (prev : option ascii) (action s : string) :
  match_here prev action (rstrip s) = match_here prev action s.
Proof.
  unfold match_here, boundary.
  by rewrite opt_word_head_rstrip, match_literal_rstrip.
Qed.

Lemma search_blank (action s : string) :
  ∀ prev, opt_word prev = false → rstrip s = EmptyString →
    search_from prev action s = false.
Proof.
  induction s as [|c s IH]; intros prev Hprev Hb.
  - simpl. unfold match_here, boundary. simpl. by rewrite Hprev.
  - apply rstrip_blank in Hb as [Hc Hs]. cbn [search_from].
    rewrite (IH (Some c)) by (done || apply space_not_word; done).
    unfold match_here, boundary. simpl. by rewrite Hprev, space_not_word.
Qed.

Lemma search_rstrip (action s : string) :
  ∀ prev, search_from prev action (rstrip s) = search_from prev action s.
Proof.
  induction s as [|c s IH]; intros prev; [done|].
  transitivity (match_here prev action (rstrip (String c s)) ||
                search_from (Some c) action (rstrip s)).
  - rewrite rstrip_cons. destruct (rstrip s) as [|c' r] eqn:Hr.
    + destruct (is_space c) eqn:Hc; [|done]. simpl.
      unfold match_here, boundary. simpl. by rewrite space_not_word.
    + done.
  - by rewrite match_here_rstrip, IH.
Qed.

(** The search in the stripped reply is the search in the reply. *)
Lemma re_search_strip (action text : string) :
  re_search action (strip text) = re_search action text.
Proof. unfold re_search, strip. rewrite search_rstrip. by apply search_lstrip. Qed.

(** ** The operations on the state *)

Section Operations.
Context {W : Type} `{Externals W}.

Lemma set_chat_history_same (a : agent) : set_chat_history (chat_history a) a = a.
Proof. by destruct a. Qed.

Lemma take_step_eq (action : string) (st : St W) :
  take_step action st = (Ok (step_locals action st), stepped action st).
Proof.
  unfold take_step, step_locals, stepped, update_action, update_reward,
    update_observation, bind, get, call, log, update_self, modify, ret.
  destruct st as [[c ms n obs acts rews inf cfg h] w tr]; simpl.
  destruct c; simpl;
    unfold Agent_update_action, LLMAgent_update_action, append_turn,
      bind, get, update_self, modify; simpl;
    destruct (env_step action w) as [[[[o r] d] i] w']; simpl;
    try reflexivity.
  unfold step_turns. by rewrite <- !app_assoc.
Qed.

Lemma random_choice_member (seq : list string) (st : St W) :
  seq ≠ [] →
  ∃ a, a ∈ seq ∧
       random_choice seq st =
       (Ok a, State (self st) (snd (randbelow (length seq) (world st))) (trace st)).
Proof.
  intros Hne. destruct seq as [|x seq]; [done|].
  unfold random_choice, bind, call.
  destruct (randbelow (length (x :: seq)) (world st)) as [r w'] eqn:Hr; simpl.
  destruct (lookup_lt_is_Some_2 (x :: seq) (r mod length (x :: seq))) as [a Ha].
  { apply Nat.mod_upper_bound. simpl. lia. }
  exists a. split; [by eapply list_elem_of_lookup_2|].
  simpl in Ha. by rewrite Ha.
Qed.

Lemma random_choice_empty (st : St W) :
  random_choice [] st = (Raise IndexError, st).
Proof. reflexivity. Qed.

(** A failure of [random.choice] is not one that the [except] clause of
    [choose_action] handles. *)
Lemma random_choice_unhandled (seq : list string) (k : exn → M (St W) string)
    (st : St W) :
  (∀ s, k IndexError s = (Raise IndexError, s)) →
  match random_choice seq st with
  | (Ok a, s') => (Ok a, s')
  | (Raise e, s') => k e s'
  end = random_choice seq st.
Proof.
  intros Hk. destruct seq as [|x l]; [apply Hk|].
  destruct (random_choice_member (x :: l) st) as (y & _ & ->); done.
Qed.

#[local] Arguments random_choice : simpl never.

(** What [LLMAgent.choose_action] computes when the current observation is
    logged: the history is trimmed, the request is sent, and the reply
    decides. *)
Lemma LLMAgent_choose_action_eq (valid_actions : list string) (o : string) (st : St W) :
  observations (self st) !! step (self st) = Some o →
  LLMAgent_choose_action valid_actions st =
  let st' := asked valid_actions o st in
  let fallback := fallback_to_random (config (self st)) in
  match raw_response_of (posted valid_actions o st) with
  | Ok raw_response =>
      match find (fun action => re_search action raw_response) valid_actions with
      | Some action => (Ok action, st')
      | None =>
          if fallback then random_choice valid_actions st'
          else (Raise (ValueError
                  ("No valid action found in LLM response and fallback_to_random is "
                   +:+ "False. Raw response: " +:+ raw_response)), st')
      end
  | Raise e =>
      if handled e && fallback then random_choice valid_actions st'
      else (Raise e, st')
  end.
Proof.
  intros Ho.
  unfold LLMAgent_choose_action, asked, posted, request_of, trim.
  unfold bind at 1. unfold get at 1. cbv beta iota.
  destruct st as [a w tr]; simpl in *.
  set (window := max_chat_history_size (config a)).
  destruct (over_window window (chat_history a)) eqn:Hover.
  - unfold bind, update_self, modify, get, current_observation; simpl.
    unfold bind, get; simpl. rewrite Ho. unfold ret; simpl.
    unfold try_except, try_body, bind, get, call, log, modify, lift; simpl.
    destruct (requests_post _ w) as [p w'] eqn:Hp; simpl.
    destruct (raw_response_of p) as [raw|e]; simpl.
    + destruct (find _ valid_actions); [reflexivity|].
      destruct (fallback_to_random (config a)); [|reflexivity].
      apply (random_choice_unhandled _ (fun e => if handled e then _ else _)). reflexivity.
    + destruct (handled e), (fallback_to_random (config a)); reflexivity.
  - unfold bind, update_self, modify, get, current_observation, ret; simpl.
    unfold bind, get; simpl. rewrite Ho. unfold ret; simpl.
    unfold try_except, try_body, bind, get, call, log, modify, lift; simpl.
    rewrite set_chat_history_same.
    destruct (requests_post _ w) as [p w'] eqn:Hp; simpl.
    destruct (raw_response_of p) as [raw|e]; simpl.
    + destruct (find _ valid_actions); [reflexivity|].
      destruct (fallback_to_random (config a)); [|reflexivity].
      apply (random_choice_unhandled _ (fun e => if handled e then _ else _)). reflexivity.
    + destruct (handled e), (fallback_to_random (config a)); reflexivity.
Qed.

Lemma LLMAgent_choose_action_no_observation (valid_actions : list string) (st : St W) :
  observations (self st) !! step (self st) = None →
  LLMAgent_choose_action valid_actions st =
  (Raise KeyError,
   State (set_chat_history
            (trim (max_chat_history_size (config (self st))) (chat_history (self st)))
            (self st))
         (world st) (trace st)).
Proof.
  intros Ho. unfold LLMAgent_choose_action, trim.
  unfold bind at 1. unfold get at 1. cbv beta iota.
  destruct st as [a w tr]; simpl in *.
  destruct (over_window _ (chat_history a));
    unfold bind, update_self, modify, get, current_observation, ret; simpl;
    unfold bind, get; simpl; rewrite Ho; [reflexivity|].
  by rewrite set_chat_history_same.
Qed.

(** The frame of the policy of an [LLMAgent]: it touches the chat history
    only, by the trim; it calls the environment not at all and the service
    at most once; an action it returns is one of the legal actions. *)
Lemma LLMAgent_choose_action_frame (valid_actions : list string) (st : St W) :
  ∀ r st', LLMAgent_choose_action valid_actions st = (r, st') →
    self st' = set_chat_history
                 (trim (max_chat_history_size (config (self st))) (chat_history (self st)))
                 (self st) ∧
    (trace st' = trace st ∨ ∃ req, trace st' = EvPost req :: trace st) ∧
    (∀ a, r = Ok a → a ∈ valid_actions) ∧
    r ≠ Raise UnboundLocalError.
Proof.
  intros r st' Hrun.
  destruct (observations (self st) !! step (self st)) as [o|] eqn:Ho.
  - rewrite (LLMAgent_choose_action_eq _ o) in Hrun by done. cbv zeta in Hrun.
    assert (Hrand : ∀ r st', random_choice valid_actions (asked valid_actions o st) = (r, st') →
              self st' = self (asked valid_actions o st) ∧
              trace st' = trace (asked valid_actions o st) ∧
              (∀ a, r = Ok a → a ∈ valid_actions) ∧ r ≠ Raise UnboundLocalError).
    { intros r0 st0 Hr. destruct valid_actions as [|x l].
      - rewrite random_choice_empty in Hr. injection Hr as <- <-.
        split_and!; [done|done|congruence..].
      - destruct (random_choice_member (x :: l) (asked (x :: l) o st))
          as (y & Hy & Hy'); [done|].
        rewrite Hy' in Hr. injection Hr as <- <-. simpl.
        split_and!; [done|done| |congruence]. intros a [= <-]. exact Hy. }
    destruct (raw_response_of _) as [raw|e] eqn:Hraw.
    + destruct (find _ valid_actions) as [a|] eqn:Hfind.
      * injection Hrun as <- <-. simpl. split_and!; [done|eauto| |congruence].
        intros a' [= <-]. apply find_some in Hfind as [Hin _].
        by apply list_elem_of_In.
      * destruct (fallback_to_random _).
        -- apply Hrand in Hrun as (-> & -> & ? & ?). simpl. eauto 10.
        -- injection Hrun as <- <-. simpl. split_and!; [done|eauto|congruence..].
    + destruct (handled e && fallback_to_random _) eqn:Hh.
      * apply Hrand in Hrun as (-> & -> & ? & ?). simpl. eauto 10.
      * injection Hrun as <- <-. simpl. split_and!; [done|eauto|congruence|].
        intros [= ->]. unfold raw_response_of, message_content in Hraw.
        destruct (posted _ _ _) as [resp|]; [|discriminate].
        unfold and_then, raise_for_status, response_json, getitem_str,
          getitem_0, json_strip in Hraw.
        repeat (case_match; simplify_eq; try discriminate).
  - rewrite LLMAgent_choose_action_no_observation in Hrun by done.
    injection Hrun as <- <-. simpl. split_and!; [done|eauto|congruence..].
Qed.

(** The frame of the policy of any class. *)
Lemma choose_action_frame (valid_actions : list string) (st : St W) :
  ∀ r st', choose_action valid_actions st = (r, st') →
    (∃ h, self st' = set_chat_history h (self st)) ∧
    (trace st' = trace st ∨ ∃ req, trace st' = EvPost req :: trace st) ∧
    (∀ a, r = Ok a → a ∈ valid_actions) ∧
    r ≠ Raise UnboundLocalError.
Proof.
  intros r st' Hrun. unfold choose_action, bind, get in Hrun.
  destruct (cls (self st)) eqn:Hc.
  1,2: injection Hrun as <- <-; split_and!; [|eauto|congruence..];
       exists (chat_history (self st)); by rewrite set_chat_history_same.
  - unfold RandomAgent_choose_action in Hrun.
    destruct valid_actions as [|x l].
    + rewrite random_choice_empty in Hrun. injection Hrun as <- <-.
      split_and!; [|eauto|congruence..].
      exists (chat_history (self st)); by rewrite set_chat_history_same.
    + destruct (random_choice_member (x :: l) st) as (y & Hy & Hy'); [done|].
      rewrite Hy' in Hrun. injection Hrun as <- <-. simpl.
      split_and!; [|eauto| |congruence].
      * exists (chat_history (self st)); by rewrite set_chat_history_same.
      * intros a [= <-]. exact Hy.
  - apply LLMAgent_choose_action_frame in Hrun as (? & ? & ? & ?). eauto 10.
Qed.

(** One iteration of the loop of [Agent.run]. *)
Lemma loop_body_cases (l : locals) (st : St W) :
  let valid_actions := fst (env_get_valid_actions (world st)) in
  let st1 := State (self st) (snd (env_get_valid_actions (world st)))
                   (EvValidActions valid_actions :: trace st) in
  (valid_actions = [] ∧ loop_body l st = (Ok (Break l), st1)) ∨
  (valid_actions ≠ [] ∧
   ∃ r st2, choose_action valid_actions st1 = (r, st2) ∧
     loop_body l st =
     match r with
     | Ok action => (Ok (Next (step_locals action st2)), stepped action st2)
     | Raise e => (Raise e, st2)
     end).
Proof.
  cbv zeta. unfold loop_body, bind, call, log, modify.
  destruct (env_get_valid_actions (world st)) as [va w'] eqn:Hva; simpl.
  destruct va as [|x va]; simpl; [left; done|right].
  split; [done|].
  destruct (choose_action (x :: va) _) as [[a|e] st2] eqn:Hch.
  - exists (Ok a), st2. split; [done|]. by rewrite take_step_eq.
  - exists (Raise e), st2. done.
Qed.

End Operations.

(** ** The drivers *)

Section Drivers.
Context {W : Type} `{Externals W}.

(** The state that a constructor leaves. *)
Lemma new_eq (c : agent_class) (ms : option Z) (cfg : llm_config) (w : W) :
  new c ms cfg w =
  let '(o, _, w') := env_reset w in
  State (AgentObj c ms 0 {[0 := o]} ∅ ∅
           (match c with LLMAgent => Some ∅ | _ => None end) cfg
           (match c with
            | LLMAgent =>
                [system_message;
                 Message "user" ("Step: " +:+ pretty 0 +:+ ": Observation: " +:+ o)]
            | _ => []
            end))
        w' [EvReset].
Proof.
  unfold new, init, LLMAgent_init, reset_env, current_observation, append_turn,
    bind, get, call, log, update_self, modify, ret.
  destruct c; simpl; destruct (env_reset w) as [[o i] w']; reflexivity.
Qed.

(** Induction on the iterations of the loop of [Agent.run]: [P] holds before
    every iteration, [Q] of however the loop ends. *)
Lemma while_loop_ind (P : locals → St W → Prop)
    (Q : option (result locals) → St W → Prop) :
  (∀ l st, P l st → loop_cond l (self st) = false → Q (Some (Ok l)) st) →
  (∀ l st, P l st → loop_cond l (self st) = true → Q None st) →
  (∀ l st, P l st → loop_cond l (self st) = true →
     match loop_body l st with
     | (Ok (Next l'), st') => P l' st'
     | (Ok (Break l'), st') => Q (Some (Ok l')) st'
     | (Raise e, st') => Q (Some (Raise e)) st'
     end) →
  ∀ fuel l st, P l st →
    Q (fst (while_loop fuel l st)) (snd (while_loop fuel l st)).
Proof.
  intros Hexit Hfuel Hbody fuel.
  induction fuel as [|fuel IH]; intros l st HP; simpl;
    destruct (loop_cond l (self st)) eqn:Hc; simpl; eauto.
  specialize (Hbody l st HP Hc).
  destruct (loop_body l st) as [[[l'|l']|e] st']; simpl; eauto.
Qed.

(** The end of [run]: the info is stored and the environment closed, or the
    local [info] was never bound. *)
Lemma finish_eq (l : locals) (st : St W) :
  finish l st =
  match l_info l with
  | Some i => (Ok tt, State (set_info (Some i) (self st)) (env_close (world st))
                            (EvClose :: trace st))
  | None => (Raise UnboundLocalError, st)
  end.
Proof. unfold finish. by destruct (l_info l). Qed.

Lemma replay_eq (script : list string) :
  ∀ (l : locals) (st : St W),
    replay script l st =
    match script with
    | [] => (Ok l, st)
    | action :: rest => replay rest (step_locals action st) (stepped action st)
    end.
Proof. destruct script; intros; [done|]. simpl. unfold bind. by rewrite take_step_eq. Qed.

End Drivers.

(** ** The logs of an episode *)

Section Logs.
Context {W : Type} `{Externals W}.

#[local] Arguments set_seq : simpl never.

Lemma logs_at_set_chat_history (n : nat) (h : list message) (a : agent) :
  logs_at n (set_chat_history h a) ↔ logs_at n a.
Proof. done. Qed.

Lemma logs_at_set_info (n : nat) (i : option Info) (a : agent) :
  logs_at n (set_info i a) ↔ logs_at n a.
Proof. done. Qed.

Lemma logs_at_new (c : agent_class) (ms : option Z) (cfg : llm_config) (w : W) :
  logs_at (step (self (new c ms cfg w))) (self (new c ms cfg w)).
Proof.
  rewrite new_eq. destruct (env_reset w) as [[o i] w']. unfold logs_at; simpl.
  split_and!; [done|done|]. rewrite dom_singleton_L. set_solver.
Qed.

Lemma logs_at_stepped (action : string) (st : St W) :
  logs_at (step (self st)) (self st) →
  logs_at (step (self (stepped action st))) (self (stepped action st)).
Proof.
  unfold stepped. destruct (env_step action (world st)) as [[[[o r] d] i] w'].
  unfold logs_at; simpl. intros (Ha & Hr & Ho).
  rewrite !dom_insert_L, Ha, Hr, Ho, Nat.add_1_r.
  split_and!.
  - by rewrite (set_seq_S_end_union_L 0 (step (self st))).
  - by rewrite (set_seq_S_end_union_L 1 (step (self st))).
  - by rewrite (set_seq_S_end_union_L 0 (S (step (self st)))).
Qed.

Lemma logs_at_loop (fuel : nat) (l : locals) (st : St W) :
  logs_at (step (self st)) (self st) →
  logs_at (step (self (snd (while_loop fuel l st))))
          (self (snd (while_loop fuel l st))).
Proof.
  intros Hinv.
  apply (while_loop_ind (fun _ s => logs_at (step (self s)) (self s))
                        (fun _ s => logs_at (step (self s)) (self s)));
    [done|done| |done].
  clear. intros l st Hinv _.
  destruct (loop_body_cases l st) as [[_ ->]|(_ & r & st2 & Hch & ->)]; [done|].
  apply choose_action_frame in Hch as ([h Hself] & _).
  assert (logs_at (step (self st2)) (self st2)) by (by rewrite Hself).
  destruct r; [by apply logs_at_stepped|done].
Qed.

Lemma logs_at_replay (script : list string) :
  ∀ (l : locals) (st : St W),
    logs_at (step (self st)) (self st) →
    logs_at (step (self (snd (replay script l st))))
            (self (snd (replay script l st))).
Proof.
  induction script as [|a script IH]; intros l st Hinv; rewrite replay_eq; [done|].
  by apply IH, logs_at_stepped.
Qed.

Lemma logs_at_finish (l : locals) (st : St W) :
  logs_at (step (self st)) (self st) →
  logs_at (step (self (snd (finish l st)))) (self (snd (finish l st))).
Proof. rewrite finish_eq. by destruct (l_info l). Qed.

(** However far [run] gets, the logs are those of a step boundary. *)
Lemma logs_at_run (fuel : nat) (st : St W) :
  logs_at (step (self st)) (self st) →
  logs_at (step (self (snd (run fuel st)))) (self (snd (run fuel st))).
Proof.
  intros Hinv. unfold run.
  assert (Hagent : logs_at (step (self (snd (Agent_run fuel st))))
                           (self (snd (Agent_run fuel st)))).
  { unfold Agent_run. pose proof (logs_at_loop fuel (Locals false None) st Hinv) as Hl.
    destruct (while_loop fuel _ st) as [[[l|e]|] st']; simpl in *; try done.
    pose proof (logs_at_finish l st' Hl). by destruct (finish l st'). }
  destruct (cls (self st)); try exact Hagent.
  unfold WalkThroughAgent_run, bind, call, log, modify.
  destruct (env_get_walkthrough (world st)) as [script w'] eqn:Hs; simpl.
  pose proof (logs_at_replay script (Locals false None)
                (State (self st) w' (EvWalkthrough :: trace st)) Hinv) as Hl.
  destruct (replay script _ _) as [[l|e] st']; simpl in *; [|done].
  pose proof (logs_at_finish l st' Hl). by destruct (finish l st').
Qed.

Lemma logs_at_sizes (n : nat) (a : agent) :
  logs_at n a →
  size (actions a) = n ∧ size (rewards a) = n ∧ size (observations a) = n + 1.
Proof.
  intros (Ha & Hr & Ho).
  rewrite <- !size_dom, Ha, Hr, Ho, !size_set_seq. lia.
Qed.

(** C1. When an episode completes ([Agent.run] or [WalkThroughAgent.run]
    returns normally), the number of recorded rewards equals the number of
    recorded actions equals the final step counter, and the number of
    recorded observations is the final step counter plus one. *)
Theorem completed_episode_counts (c : agent_class) (ms : option Z)
    (cfg : llm_config) (w : W) (fuel : nat) (st' : St W) :
  run fuel (new c ms cfg w) = (Some (Ok tt), st') →
  size (rewards (self st')) = size (actions (self st')) ∧
  size (actions (self st')) = step (self st') ∧
  size (observations (self st')) = step (self st') + 1.
Proof.
  intros Hrun.
  pose proof (logs_at_run fuel (new c ms cfg w) (logs_at_new c ms cfg w)) as Hl.
  rewrite Hrun in Hl. simpl in Hl.
  apply logs_at_sizes in Hl as (-> & -> & ->). done.
Qed.

(** C7, amended. At every step boundary of an episode (before each iteration
    of the loop and at its exit), with current step counter [step], the
    actions are logged exactly at the indices [0..step-1] and the rewards
    exactly at the indices [1..step]. *)
Theorem logs_keys_at_step_boundary (c : agent_class) (ms : option Z)
    (cfg : llm_config) (w : W) (fuel : nat) :
  let a := self (snd (run fuel (new c ms cfg w))) in
  (∀ k : nat, is_Some (actions a !! k) ↔ k < step a) ∧
  (∀ k : nat, is_Some (rewards a !! k) ↔ 1 ≤ k ≤ step a).
Proof.
  cbv zeta.
  pose proof (logs_at_run fuel (new c ms cfg w) (logs_at_new c ms cfg w))
    as (Ha & Hr & _).
  split; intros k; rewrite <- elem_of_dom.
  - rewrite Ha, elem_of_set_seq. lia.
  - rewrite Hr, elem_of_set_seq. lia.
Qed.

End Logs.

(** ** The step budget *)

Section Budget.
Context {W : Type} `{Externals W}.

Lemma max_steps_stepped (action : string) (st : St W) :
  max_steps (self (stepped action st)) = max_steps (self st) ∧
  step (self (stepped action st)) = step (self st) + 1.
Proof.
  unfold stepped. by destruct (env_step action (world st)) as [[[[o r] d] i] w'].
Qed.

(** What one iteration does to the step counter and to [max_steps]. *)
Lemma loop_body_step (l : locals) (st : St W) :
  match loop_body l st with
  | (Ok (Next _), st') =>
      max_steps (self st') = max_steps (self st) ∧
      step (self st') = step (self st) + 1
  | (_, st') =>
      max_steps (self st') = max_steps (self st) ∧
      step (self st') = step (self st)
  end.
Proof.
  destruct (loop_body_cases l st) as [[_ ->]|(_ & r & st2 & Hch & ->)]; [done|].
  apply choose_action_frame in Hch as ([h Hself] & _).
  destruct r as [a|e].
  - destruct (max_steps_stepped a st2) as [-> ->]. by rewrite Hself.
  - by rewrite Hself.
Qed.

Lemma step_bound_loop (m : Z) (fuel : nat) (l : locals) (st : St W) :
  (1 ≤ m)%Z →
  max_steps (self st) = Some m →
  (Z.of_nat (step (self st)) ≤ m)%Z →
  (Z.of_nat (step (self (snd (while_loop fuel l st)))) ≤ m)%Z.
Proof.
  intros Hm Hms Hle.
  apply (while_loop_ind
           (fun _ s => max_steps (self s) = Some m ∧ (Z.of_nat (step (self s)) ≤ m)%Z)
           (fun _ s => (Z.of_nat (step (self s)) ≤ m)%Z));
    [tauto|tauto| |done].
  clear -Hm. intros l st [Hms Hle] Hc.
  pose proof (loop_body_step l st) as Hb.
  unfold loop_cond in Hc. rewrite Hms in Hc.
  destruct (loop_body l st) as [[[l'|l']|e] st']; destruct Hb as [Hms' Hstep];
    rewrite ?Hms', ?Hstep; try done.
  split; [done|].
  apply andb_true_iff in Hc as [_ Hc]. apply orb_true_iff in Hc as [Hc|Hc]; lia.
Qed.

(** With a budget of [m] steps the loop ends within [m - step] iterations. *)
Lemma budget_ends_loop (m : Z) (fuel : nat) :
  ∀ (l : locals) (st : St W),
    (1 ≤ m)%Z →
    max_steps (self st) = Some m →
    (m - Z.of_nat (step (self st)) ≤ Z.of_nat fuel)%Z →
    fst (while_loop fuel l st) ≠ None.
Proof.
  induction fuel as [|fuel IH]; intros l st Hm Hms Hfuel; simpl;
    unfold loop_cond; rewrite Hms;
    destruct (negb (l_done l)); simpl; try done;
    destruct (m =? 0)%Z eqn:H0; try lia; simpl;
    destruct (Z.of_nat (step (self st)) <? m)%Z eqn:Hlt; try done; try lia.
  pose proof (loop_body_step l st) as Hb.
  destruct (loop_body l st) as [[[l'|l']|e] st']; try done.
  destruct Hb as [Hms' Hstep]. apply IH; [done|congruence|]. rewrite Hstep. lia.
Qed.

Lemma step_replay (script : list string) :
  ∀ (l : locals) (st : St W),
    step (self (snd (replay script l st))) = step (self st) + length script.
Proof.
  induction script as [|a script IH]; intros l st; rewrite replay_eq; simpl; [lia|].
  rewrite IH. destruct (max_steps_stepped a st) as [_ ->]. lia.
Qed.

(** The step maximum where the code keeps it. With a step maximum [m] of at
    least one, the random and the model-driven agents never exceed [m] steps
    and their episode is over within [m] iterations of the loop; the
    walkthrough agent takes as many steps as the walkthrough is long,
    whatever [max_steps] is. *)
Theorem steps_within_budget (c : agent_class) (m : Z) (ms : option Z)
    (cfg : llm_config) (w : W) (fuel : nat) :
  (1 ≤ m)%Z →
  c = RandomAgent ∨ c = LLMAgent →
  ((Z.of_nat (step (self (snd (run fuel (new c (Some m) cfg w))))) ≤ m)%Z ∧
   (Z.to_nat m ≤ fuel → fst (run fuel (new c (Some m) cfg w)) ≠ None)) ∧
  step (self (snd (run fuel (new WalkThroughAgent ms cfg w)))) =
  length (fst (env_get_walkthrough (snd (env_reset w)))).
Proof.
  intros Hm Hc. split.
  - assert (Hrun : run fuel (new c (Some m) cfg w) = Agent_run fuel (new c (Some m) cfg w)).
    { unfold run. rewrite new_eq. destruct (env_reset w) as [[o i] w'].
      by destruct Hc as [-> | ->]. }
    rewrite Hrun. unfold Agent_run.
    assert (Hms : max_steps (self (new c (Some m) cfg w)) = Some m)
      by (rewrite new_eq; by destruct (env_reset w) as [[o i] w']).
    assert (Hst : step (self (new c (Some m) cfg w)) = 0)
      by (rewrite new_eq; by destruct (env_reset w) as [[o i] w']).
    pose proof (step_bound_loop m fuel (Locals false None) _ Hm Hms) as Hle.
    pose proof (budget_ends_loop m fuel (Locals false None) _ Hm Hms) as Hend.
    rewrite Hst in Hle, Hend.
    destruct (while_loop fuel _ _) as [[[l|e]|] st']; simpl in *.
    + rewrite finish_eq. destruct (l_info l); simpl; split; (done || lia).
    + split; (done || lia).
    + split; [lia|]. intros Hfuel. exfalso. apply Hend; [lia|done].
  - unfold run. rewrite new_eq. destruct (env_reset w) as [[o i] w']; simpl.
    unfold WalkThroughAgent_run, bind, call, log, modify; simpl.
    destruct (env_get_walkthrough w') as [script w''] eqn:Hs; simpl.
    pose proof (step_replay script (Locals false None)
                  (State (AgentObj WalkThroughAgent ms 0 {[0 := o]} ∅ ∅ None cfg [])
                         w'' [EvWalkthrough; EvReset])) as Hstep.
    destruct (replay script _ _) as [[l|e] st']; simpl in *; [|done].
    rewrite finish_eq. by destruct (l_info l).
Qed.

End Budget.

(** ** The calls to the environment *)

Section Calls.
Context {W : Type} `{Externals W}.

Lemma stepped_trace (action : string) (st : St W) :
  ∃ o r d i, trace (stepped action st) = EvStep action o r d i :: trace st ∧
             step_locals action st = Locals d (Some i).
Proof.
  unfold stepped, step_locals.
  destruct (env_step action (world st)) as [[[[o r] d] i] w']. by exists o, r, d, i.
Qed.

Lemma stepped_info (action : string) (st : St W) :
  info (self (stepped action st)) = info (self st).
Proof.
  unfold stepped. by destruct (env_step action (world st)) as [[[[o r] d] i] w'].
Qed.

Lemma loop_trace (fuel : nat) (l : locals) (st : St W) :
  loop_inv l st →
  loop_post (fst (while_loop fuel l st)) (snd (while_loop fuel l st)).
Proof.
  apply while_loop_ind; clear.
  - intros l st (Hc & Hv & Hi) _. split; [done|]. split; [done|]. by intros ?.
  - intros l st (Hc & _) _. by split.
  - intros l st (Hc & Hv & Hi) _.
    destruct (loop_body_cases l st) as [[Hva ->]|(Hne & r & st2 & Hch & ->)].
    + split; simpl; [by apply not_elem_of_cons|]. split; [done|].
      intros _. rewrite Hva. by eexists.
    + apply choose_action_frame in Hch as (_ & Htr & _ & Hr). simpl in Htr.
      assert (Hc2 : (EvClose ∉ trace st2) ∧ (EvValidActions [] ∉ trace st2) ∧
                    last_step_info (trace st2) = last_step_info (trace st)).
      { destruct Htr as [-> | [req ->]]; simpl;
          rewrite ?not_elem_of_cons; split_and!; done || congruence. }
      destruct Hc2 as (Hc2 & Hv2 & Hi2).
      destruct r as [a|e].
      * destruct (stepped_trace a st2) as (o & r & d & i & Ht & Hl).
        unfold loop_inv. rewrite Ht, Hl. simpl.
        rewrite !not_elem_of_cons. split_and!; done.
      * split; [done|]. split; [done|]. congruence.
Qed.

Lemma replay_trace (script : list string) :
  ∀ (l : locals) (st : St W),
    EvClose ∉ trace st → l_info l = last_step_info (trace st) →
    ∃ l' st', replay script l st = (Ok l', st') ∧
              (EvClose ∉ trace st') ∧ l_info l' = last_step_info (trace st').
Proof.
  induction script as [|a script IH]; intros l st Hc Hi; rewrite replay_eq; [eauto|].
  destruct (stepped_trace a st) as (o & r & d & i & Htr & ->).
  apply IH; rewrite Htr; [|done]. by apply not_elem_of_cons.
Qed.

Lemma new_trace (c : agent_class) (ms : option Z) (cfg : llm_config) (w : W) :
  trace (new c ms cfg w) = [EvReset].
Proof. rewrite new_eq. by destruct (env_reset w) as [[o i] w']. Qed.

Lemma new_loop_inv (c : agent_class) (ms : option Z) (cfg : llm_config) (w : W) :
  loop_inv (Locals false None) (new c ms cfg w).
Proof.
  unfold loop_inv. rewrite new_trace. simpl.
  rewrite !not_elem_of_cons. split_and!; (done || apply not_elem_of_nil).
Qed.

(** C3, amended. Whenever [run] returns normally (the game is done, the step
    budget is used up, or no action is legal after at least one step), the
    call of [close] is the last call made and the only call of [close]; when
    an error of the policy propagates out of [run], [close] is not called. *)
Theorem close_on_normal_return (c : agent_class) (ms : option Z)
    (cfg : llm_config) (w : W) (fuel : nat) (r : result unit) (st' : St W) :
  run fuel (new c ms cfg w) = (Some r, st') →
  (r = Ok tt → ∃ tr, trace st' = EvClose :: tr ∧ (EvClose ∉ tr)) ∧
  (∀ e, r = Raise e → e ≠ UnboundLocalError → EvClose ∉ trace st').
Proof.
  intros Hrun.
  assert (Hfin : ∀ l st, EvClose ∉ trace st → finish l st = (r, st') →
            (r = Ok tt → ∃ tr, trace st' = EvClose :: tr ∧ (EvClose ∉ tr)) ∧
            (∀ e, r = Raise e → e ≠ UnboundLocalError → EvClose ∉ trace st')).
  { intros l st Hc Hf. rewrite finish_eq in Hf.
    destruct (l_info l); injection Hf as <- <-; split; try done; simpl; eauto. }
  unfold run in Hrun. destruct (cls (self (new c ms cfg w))) eqn:Hcls.
  2: { unfold WalkThroughAgent_run, bind, call, log, modify in Hrun.
       destruct (env_get_walkthrough _) as [script w'] eqn:Hs; simpl in Hrun.
       rewrite new_trace in Hrun.
       destruct (replay_trace script (Locals false None)
                   (State (self (new c ms cfg w)) w' [EvWalkthrough; EvReset]))
         as (l' & st1 & Hrep & Hc & _); simpl.
       { rewrite !not_elem_of_cons. split_and!; (done || apply not_elem_of_nil). }
       { done. }
       rewrite Hrep in Hrun.
       destruct (finish l' st1) as [r1 st2] eqn:Hf. injection Hrun as <- <-.
       by apply (Hfin l' st1). }
  all: unfold Agent_run in Hrun;
    pose proof (loop_trace fuel _ _ (new_loop_inv c ms cfg w)) as [Hc Hpost];
    destruct (while_loop fuel _ _) as [[[l|e]|] st1]; simpl in *; try done;
    [ destruct (finish l st1) as [r1 st2] eqn:Hf; injection Hrun as <- <-;
      by apply (Hfin l st1)
    | injection Hrun as <- <-; split; [done|]; by intros e' [= <-] ].
Qed.

Lemma loop_body_next_info (l l' : locals) (st st' : St W) :
  loop_body l st = (Ok (Next l'), st') →
  l_info l' = last_step_info (trace st').
Proof.
  intros Hbody.
  destruct (loop_body_cases l st) as [[_ Hb]|(_ & r & st2 & _ & Hb)];
    rewrite Hb in Hbody; [discriminate|].
  destruct r as [a|e]; [|discriminate]. injection Hbody as <- <-.
  destruct (stepped_trace a st2) as (o & r & d & i & -> & ->). done.
Qed.

(** A loop that is cut after [k] turns stands before a further turn, with
    the local [info] of the newest step, and more fuel resumes it there. *)
Lemma while_loop_resume (k : nat) :
  ∀ (l : locals) (st st_k : St W),
    l_info l = last_step_info (trace st) →
    while_loop k l st = (None, st_k) →
    ∃ l_k, l_info l_k = last_step_info (trace st_k) ∧
           loop_cond l_k (self st_k) = true ∧
           ∀ n, while_loop (k + n) l st = while_loop n l_k st_k.
Proof.
  induction k as [|k IH]; intros l st st_k Hi Hcut; simpl in Hcut.
  - destruct (loop_cond l (self st)) eqn:Hc; [|discriminate].
    injection Hcut as <-. by exists l.
  - destruct (loop_cond l (self st)) eqn:Hc; [|discriminate].
    destruct (loop_body l st) as [[[l'|l']|e] st'] eqn:Hbody; try discriminate.
    destruct (IH l' st' st_k) as (l_k & Hik & Hck & Hres); [|done|].
    { by apply (loop_body_next_info l l' st st'). }
    exists l_k. split_and!; [done|done|].
    intros n. simpl. by rewrite Hc, Hbody.
Qed.

(** C9. When the set of legal actions comes back empty after at least one
    step was taken, the episode ends there without an error. Let the loop of
    [run] stand before a further turn in the state [st] ([k] turns were
    made), let [i] be the info of the last [env.step] call, and let the
    environment answer no legal action in [st]. Then [run] returns normally
    with any larger number of turns allowed, the info it stores is [i], no
    further step is taken and nothing but [close] is called after the empty
    answer. *)
Theorem empty_legal_actions_mid_episode (c : agent_class) (ms : option Z)
    (cfg : llm_config) (w : W) (k : nat) (st : St W) (i : Info) :
  c ≠ WalkThroughAgent →
  run k (new c ms cfg w) = (None, st) →
  last_step_info (trace st) = Some i →
  fst (env_get_valid_actions (world st)) = [] →
  ∀ fuel, k < fuel →
    let out := run fuel (new c ms cfg w) in
    fst out = Some (Ok tt) ∧
    info (self (snd out)) = Some i ∧
    step (self (snd out)) = step (self st) ∧
    trace (snd out) = EvClose :: EvValidActions [] :: trace st.
Proof.
  intros Hc Hcut Hlast Hempty fuel Hfuel. cbv zeta.
  assert (Hrun : ∀ n, run n (new c ms cfg w) = Agent_run n (new c ms cfg w)).
  { intros n. unfold run. rewrite new_eq.
    destruct (env_reset w) as [[o i0] w']. by destruct c. }
  rewrite Hrun in Hcut |- *. unfold Agent_run in Hcut |- *.
  assert (Hloop : while_loop k (Locals false None) (new c ms cfg w) = (None, st)).
  { destruct (while_loop k _ _) as [[[l|e]|] st1]; [|discriminate|congruence].
    by destruct (finish l st1). }
  destruct (while_loop_resume k _ _ st (proj2 (proj2 (new_loop_inv c ms cfg w))) Hloop)
    as (l_k & Hik & Hck & Hres).
  replace fuel with (k + S (fuel - S k)) by lia.
  rewrite Hres. simpl. rewrite Hck.
  destruct (loop_body_cases l_k st) as [[_ Hb]|[Hne _]]; [|done].
  rewrite Hb, Hempty, finish_eq, Hik, Hlast. done.
Qed.

(** C10. When the set of legal actions is empty at the very first step, the
    loop of [Agent.run] is left with the local [info] never bound: storing
    it raises [UnboundLocalError], the info of the agent is not assigned,
    no step is taken and the environment is not closed. *)
Theorem empty_legal_actions_at_first_step (c : agent_class) (ms : option Z)
    (cfg : llm_config) (w : W) (fuel : nat) :
  c ≠ WalkThroughAgent →
  fst (env_get_valid_actions (world (new c ms cfg w))) = [] →
  let out := run (S fuel) (new c ms cfg w) in
  fst out = Some (Raise UnboundLocalError) ∧
  (EvClose ∉ trace (snd out)) ∧
  step (self (snd out)) = 0 ∧
  info (self (snd out)) = info (self (new c ms cfg w)).
Proof.
  intros Hc Hempty. cbv zeta.
  assert (Hrun : run (S fuel) (new c ms cfg w) = Agent_run (S fuel) (new c ms cfg w)).
  { unfold run. rewrite new_eq. destruct (env_reset w) as [[o i0] w']. by destruct c. }
  rewrite Hrun. unfold Agent_run. simpl.
  assert (Hst : step (self (new c ms cfg w)) = 0)
    by (rewrite new_eq; by destruct (env_reset w) as [[o i] w']).
  pose proof (new_trace c ms cfg w) as Htr.
  destruct (loop_cond _ _).
  - destruct (loop_body_cases (Locals false None) (new c ms cfg w))
      as [[_ ->]|(Hne & _)]; [|done].
    simpl. rewrite Htr. split_and!; try done.
    rewrite !not_elem_of_cons. split_and!; (done || apply not_elem_of_nil).
  - simpl. rewrite Htr. split_and!; try done.
    rewrite !not_elem_of_cons. split_and!; (done || apply not_elem_of_nil).
Qed.

End Calls.

(** ** The model-driven policy *)

Section Policy.
Context {W : Type} `{Externals W}.

(** C2. On a successful reply of the service, the model-driven selection
    returns the first action, in the order of the list it is given, whose
    text occurs in the text of the reply as a whole word, whatever the case
    of the letters. The reply, the action and the actions before it are
    ASCII texts: the classes of the characters and their case are modelled
    on that range only. *)
Theorem choose_action_first_whole_word_match
    (valid_actions earlier later : list string) (action o text : string)
    (st : St W) :
  observations (self st) !! step (self st) = Some o →
  message_content (posted valid_actions o st) = Ok (JStr text) →
  valid_actions = earlier ++ action :: later →
  is_ascii text = true →
  is_ascii action = true →
  (∀ a, a ∈ earlier → is_ascii a = true) →
  whole_word_match action text →
  (∀ a, a ∈ earlier → ¬ whole_word_match a text) →
  fst (LLMAgent_choose_action valid_actions st) = Ok action.
Proof.
  intros Ho Hcontent -> _ _ _ Hmatch Hearlier.
  rewrite (LLMAgent_choose_action_eq _ o) by done. cbv zeta.
  unfold raw_response_of. rewrite Hcontent. simpl.
  rewrite find_first; [done| |].
  - rewrite re_search_strip. by apply re_search_whole_word.
  - intros a Ha. apply not_true_is_false.
    rewrite re_search_strip, re_search_whole_word. by apply Hearlier.
Qed.

(** With the fallback, a failure that the [except] clause handles, or a
    reply that names no legal action, is resolved into a legal action. *)
Lemma choose_action_fallback (valid_actions : list string) (o : string) (st : St W) :
  observations (self st) !! step (self st) = Some o →
  valid_actions ≠ [] →
  fallback_to_random (config (self st)) = true →
  (∀ e, raw_response_of (posted valid_actions o st) = Raise e → handled e = true) →
  ∃ a, a ∈ valid_actions ∧ fst (LLMAgent_choose_action valid_actions st) = Ok a.
Proof.
  intros Ho Hne Hfb Hh.
  destruct (LLMAgent_choose_action valid_actions st) as [r st'] eqn:Hrun.
  pose proof (LLMAgent_choose_action_frame _ _ _ _ Hrun) as (_ & _ & Hmem & _).
  rewrite (LLMAgent_choose_action_eq _ o) in Hrun by done. cbv zeta in Hrun.
  rewrite Hfb in Hrun.
  destruct (random_choice_member valid_actions (asked valid_actions o st) Hne)
    as (y & Hy & Hrand).
  rewrite Hrand in Hrun.
  destruct (raw_response_of _) as [raw|e] eqn:Hraw.
  - destruct (find _ _); injection Hrun as <- <-; eauto.
  - rewrite (Hh e eq_refl) in Hrun. injection Hrun as <- <-; eauto.
Qed.

(** Without the fallback, the selection returns the first match and raises
    in every other case. *)
Lemma choose_action_no_fallback (valid_actions : list string) (o : string) (st : St W) :
  observations (self st) !! step (self st) = Some o →
  fallback_to_random (config (self st)) = false →
  fst (LLMAgent_choose_action valid_actions st) =
  match raw_response_of (posted valid_actions o st) with
  | Ok raw_response =>
      match find (fun action => re_search action raw_response) valid_actions with
      | Some action => Ok action
      | None =>
          Raise (ValueError
                   ("No valid action found in LLM response and fallback_to_random is "
                    +:+ "False. Raw response: " +:+ raw_response))
      end
  | Raise e => Raise e
  end.
Proof.
  intros Ho Hfb. rewrite (LLMAgent_choose_action_eq _ o) by done. cbv zeta.
  rewrite Hfb.
  destruct (raw_response_of _) as [raw|e]; [by destruct (find _ _)|].
  by rewrite andb_false_r.
Qed.

(** *** The trim of the chat history *)

Lemma slice_from_1 {A} (x : A) (l : list A) : slice_from 1 (x :: l) = l.
Proof.
  unfold slice_from. replace (Z.to_nat _) with 1; [done|].
  simpl length. destruct (1 <? 0)%Z eqn:?; lia.
Qed.

Lemma slice_from_0 {A} (l : list A) : slice_from 0 l = l.
Proof.
  unfold slice_from. replace (Z.to_nat _) with 0; [done|].
  destruct (0 <? 0)%Z eqn:?; lia.
Qed.

Lemma length_slice_from_neg {A} (k : Z) (l : list A) :
  (0 < k)%Z → (Z.of_nat (length (slice_from (- k) l)) ≤ k)%Z.
Proof.
  intros Hk. unfold slice_from. rewrite length_drop.
  destruct (- k <? 0)%Z eqn:?; lia.
Qed.

(** For a window of at least one, the trimmed history has at most
    [3 * window + 1] turns. *)
Lemma trim_length (window : Z) (h : list message) :
  (1 ≤ window)%Z →
  (Z.of_nat (length (trim window h)) ≤ 3 * window + 1)%Z.
Proof.
  intros Hw. unfold trim, over_window.
  destruct (Z.of_nat (length h) >? window * 3)%Z eqn:Hover; [|lia].
  unfold trimmed. rewrite length_app. simpl length.
  replace (- window * 3)%Z with (- (window * 3))%Z by lia.
  pose proof (length_slice_from_neg (window * 3) (slice_from 1 h)). lia.
Qed.

(** The trim evicts the oldest turns after the system turn and nothing
    else. *)
Lemma trim_evicts_oldest (window : Z) (t : list message) :
  ∃ evicted kept,
    t = evicted ++ kept ∧
    trim window (system_message :: t) = system_message :: kept.
Proof.
  unfold trim. destruct (over_window _ _).
  - unfold trimmed. rewrite slice_from_1. unfold slice_from.
    eexists (take _ t), (drop _ t). by rewrite take_drop.
  - by exists [], t.
Qed.

(** A window of zero evicts nothing: [lst[-0:]] is the whole list. *)
Lemma trim_window_zero (t : list message) :
  trim 0 (system_message :: t) = system_message :: t.
Proof.
  unfold trim, trimmed. rewrite slice_from_1.
  destruct (over_window _ _); [|done].
  change (- 0 * 3)%Z with 0%Z. by rewrite slice_from_0.
Qed.

(** C8, amended. A call of the model-driven selection changes the chat
    history by the trim only, and nothing else of the agent: when the
    history has more than [3 * window] turns, the oldest turns after the
    system turn are evicted; no turn is appended (the turn that carries the
    question is not kept), and a history of at most [3 * window] turns is
    left as it is. The bookkeeping of a step is what appends turns: the
    action, the reward and the observation, in this order. *)
Theorem choose_action_only_trims (valid_actions : list string) (st : St W) :
  let window := max_chat_history_size (config (self st)) in
  let st' := snd (LLMAgent_choose_action valid_actions st) in
  self st' = set_chat_history (trim window (chat_history (self st))) (self st) ∧
  (over_window window (chat_history (self st)) = false →
   chat_history (self st') = chat_history (self st)) ∧
  (∀ t, chat_history (self st) = system_message :: t →
     ∃ evicted kept, t = evicted ++ kept ∧
                     chat_history (self st') = system_message :: kept) ∧
  (∀ action, cls (self st) = LLMAgent →
     ∃ o r, chat_history (self (stepped action st)) =
            chat_history (self st) ++ step_turns (step (self st)) action o r).
Proof.
  cbv zeta.
  destruct (LLMAgent_choose_action valid_actions st) as [r st'] eqn:Hrun.
  apply LLMAgent_choose_action_frame in Hrun as (Hself & _). simpl.
  rewrite Hself. simpl. split_and!; [done| | |].
  - intros Hover. unfold trim. by rewrite Hover.
  - intros t ->. apply trim_evicts_oldest.
  - intros action Hcls. unfold stepped.
    destruct (env_step action (world st)) as [[[[o rw] d] i] w']. simpl.
    rewrite Hcls. by exists o, rw.
Qed.

End Policy.

(** *** The shape of the chat history along an episode *)

Section History.
Context {W : Type} `{Externals W}.

Lemma history_ok_trim (window : Z) (h : list message) :
  history_ok h → history_ok (trim window h).
Proof.
  intros (t & -> & Ht).
  destruct (trim_evicts_oldest window t) as (evicted & kept & -> & ->).
  exists kept. split; [done|]. by apply Forall_app in Ht as [_ ?].
Qed.

Lemma history_ok_stepped (action : string) (st : St W) :
  history_ok (chat_history (self st)) →
  history_ok (chat_history (self (stepped action st))).
Proof.
  intros (t & Hh & Ht). unfold stepped.
  destruct (env_step action (world st)) as [[[[o r] d] i] w']. simpl.
  destruct (cls (self st)); try by exists t.
  exists (t ++ step_turns (step (self st)) action o r). rewrite Hh. split; [done|].
  apply Forall_app. split; [done|]. unfold step_turns.
  repeat (apply Forall_cons; split; [simpl; discriminate|]). apply Forall_nil_2.
Qed.

Lemma choose_action_history (valid_actions : list string) (st : St W) :
  ∀ r st', choose_action valid_actions st = (r, st') →
    chat_history (self st') = chat_history (self st) ∨
    chat_history (self st') =
      trim (max_chat_history_size (config (self st))) (chat_history (self st)).
Proof.
  intros r st' Hrun. unfold choose_action, bind, get in Hrun.
  destruct (cls (self st)).
  1,2: injection Hrun as <- <-; by left.
  - unfold RandomAgent_choose_action in Hrun. left.
    destruct valid_actions as [|x l].
    + rewrite random_choice_empty in Hrun. by injection Hrun as <- <-.
    + destruct (random_choice_member (x :: l) st) as (y & _ & Hy); [done|].
      rewrite Hy in Hrun. by injection Hrun as <- <-.
  - apply LLMAgent_choose_action_frame in Hrun as (-> & _). by right.
Qed.

Lemma history_ok_new (ms : option Z) (cfg : llm_config) (w : W) :
  history_ok (chat_history (self (new LLMAgent ms cfg w))).
Proof.
  rewrite new_eq. destruct (env_reset w) as [[o i] w']. simpl.
  eexists. split; [done|].
  apply Forall_cons; split; [simpl; discriminate|apply Forall_nil_2].
Qed.

(** At every step boundary of the episode of an [LLMAgent] the chat history
    is the system turn followed by turns of the other roles. *)
Lemma history_ok_run (ms : option Z) (cfg : llm_config) (w : W) (fuel : nat) :
  history_ok (chat_history (self (snd (run fuel (new LLMAgent ms cfg w))))).
Proof.
  assert (Hrun : run fuel (new LLMAgent ms cfg w) = Agent_run fuel (new LLMAgent ms cfg w)).
  { unfold run. rewrite new_eq. by destruct (env_reset w) as [[o i] w']. }
  rewrite Hrun. unfold Agent_run.
  pose proof (while_loop_ind
                (fun _ s => history_ok (chat_history (self s)))
                (fun _ s => history_ok (chat_history (self s)))) as Hind.
  assert (Hloop : history_ok (chat_history (self (snd
            (while_loop fuel (Locals false None) (new LLMAgent ms cfg w)))))).
  { apply Hind; [done|done| |apply history_ok_new].
    clear. intros l st Hok _.
    destruct (loop_body_cases l st) as [[_ ->]|(_ & r & st2 & Hch & ->)]; [done|].
    apply choose_action_history in Hch. simpl in Hch.
    assert (history_ok (chat_history (self st2))).
    { destruct Hch as [-> | ->]; [done|by apply history_ok_trim]. }
    destruct r; [by apply history_ok_stepped|done]. }
  destruct (while_loop fuel _ _) as [[[l|e]|] st']; simpl in *; try done.
  rewrite finish_eq. by destruct (l_info l).
Qed.

(** What holds of C4: for a window of at least one, the context that a
    request is built from, at any step boundary of the episode, has at most
    [3 * window + 1] turns, and it is the system turn followed by turns of
    the other roles. *)
Lemma trimmed_context_bounded (ms : option Z) (cfg : llm_config) (w : W)
    (fuel : nat) (valid_actions : list string) :
  let st := snd (run fuel (new LLMAgent ms cfg w)) in
  let window := max_chat_history_size (config (self st)) in
  let h := chat_history (self (snd (LLMAgent_choose_action valid_actions st))) in
  (1 ≤ window)%Z →
  (Z.of_nat (length h) ≤ 3 * window + 1)%Z ∧ history_ok h.
Proof.
  cbv zeta. intros Hw.
  destruct (LLMAgent_choose_action valid_actions _) as [r st'] eqn:Hch.
  apply LLMAgent_choose_action_frame in Hch as (Hself & _). simpl.
  rewrite Hself. simpl. split.
  - by apply trim_length.
  - apply history_ok_trim, history_ok_run.
Qed.

End History.

(** ** Runs on the sample episodes *)

Section SampleRuns.
Import Scripted Samples.

Lemma completed_episode_counts_witness :
  run 5 (new RandomAgent None no_config two_steps) =
    (Some (Ok tt), snd (run 5 (new RandomAgent None no_config two_steps))) ∧
  size (rewards (self (snd (run 5 (new RandomAgent None no_config two_steps))))) =
    size (actions (self (snd (run 5 (new RandomAgent None no_config two_steps))))) ∧
  size (actions (self (snd (run 5 (new RandomAgent None no_config two_steps))))) =
    step (self (snd (run 5 (new RandomAgent None no_config two_steps)))) ∧
  size (observations (self (snd (run 5 (new RandomAgent None no_config two_steps))))) =
    step (self (snd (run 5 (new RandomAgent None no_config two_steps)))) + 1.
Proof.
  split; [vm_compute; reflexivity|].
  apply (completed_episode_counts RandomAgent None no_config two_steps 5).
  vm_compute; reflexivity.
Defined.

(** The legal actions [["go north"; "north"]] and the reply "I will go north
    now": the selection returns "go north", also when "north" is listed
    first it returns the first of the list. *)
Example go_north_before_north :
  fst (LLMAgent_choose_action ["go north"; "north"]
         (new LLMAgent None (llm 10 true) two_steps)) = Ok "go north" ∧
  fst (LLMAgent_choose_action ["north"; "go north"]
         (new LLMAgent None (llm 10 true) two_steps)) = Ok "north".
Proof. split; vm_compute; reflexivity. Qed.

Lemma choose_action_first_whole_word_match_witness :
  message_content
    (posted ["south"; "key"; "go north"; "north"] "West of House"
            (new LLMAgent None (llm 10 true) capitals)) =
    Ok (JStr "I will GO North now, not south_1 (key2).") ∧
  is_ascii "I will GO North now, not south_1 (key2)." = true ∧
  whole_word_match "go north" "I will GO North now, not south_1 (key2)." ∧
  ¬ whole_word_match "south" "I will GO North now, not south_1 (key2)." ∧
  ¬ whole_word_match "key" "I will GO North now, not south_1 (key2)." ∧
  fst (LLMAgent_choose_action ["south"; "key"; "go north"; "north"]
         (new LLMAgent None (llm 10 true) capitals)) = Ok "go north".
Proof.
  assert (Hm : whole_word_match "go north" "I will GO North now, not south_1 (key2).").
  { exists "I will ", "GO North", " now, not south_1 (key2).". split_and!.
    - reflexivity.
    - apply ci_equal_same_text. vm_compute; reflexivity.
    - apply boundary_word_boundary. vm_compute; reflexivity.
    - apply boundary_word_boundary. vm_compute; reflexivity. }
  assert (Hs : ¬ whole_word_match "south" "I will GO North now, not south_1 (key2).").
  { rewrite <- re_search_whole_word. vm_compute. discriminate. }
  assert (Hk : ¬ whole_word_match "key" "I will GO North now, not south_1 (key2).").
  { rewrite <- re_search_whole_word. vm_compute. discriminate. }
  split_and!; [vm_compute; reflexivity|vm_compute; reflexivity|exact Hm|exact Hs|exact Hk|].
  apply (choose_action_first_whole_word_match
           ["south"; "key"; "go north"; "north"] ["south"; "key"] ["north"]
           "go north" "West of House"
           "I will GO North now, not south_1 (key2).").
  - vm_compute; reflexivity.
  - vm_compute; reflexivity.
  - reflexivity.
  - vm_compute; reflexivity.
  - vm_compute; reflexivity.
  - intros a Ha. apply elem_of_cons in Ha as [->|Ha]; [vm_compute; reflexivity|].
    apply elem_of_cons in Ha as [->|Ha]; [vm_compute; reflexivity|].
    by apply elem_of_nil in Ha.
  - exact Hm.
  - intros a Ha. apply elem_of_cons in Ha as [->|Ha]; [exact Hs|].
    apply elem_of_cons in Ha as [->|Ha]; [exact Hk|].
    by apply elem_of_nil in Ha.
Defined.

(** C3 as stated fails: with the fallback disabled and the service out of
    reach, the error of the policy ends [run] and [close] was never
    called. *)
Lemma policy_error_leaves_env_open :
  fst (run 5 (new LLMAgent None (llm 10 false) offline)) =
    Some (Raise RequestException) ∧
  EvClose ∉ trace (snd (run 5 (new LLMAgent None (llm 10 false) offline))).
Proof. split; [vm_compute; reflexivity|not_in_trace]. Qed.

Lemma close_on_normal_return_witness :
  run 5 (new LLMAgent None (llm 10 true) two_steps) =
    (Some (Ok tt), snd (run 5 (new LLMAgent None (llm 10 true) two_steps))) ∧
  ∃ tr, trace (snd (run 5 (new LLMAgent None (llm 10 true) two_steps))) =
          EvClose :: tr ∧ (EvClose ∉ tr).
Proof.
  split; [vm_compute; reflexivity|].
  apply (close_on_normal_return LLMAgent None (llm 10 true) two_steps 5 (Ok tt));
    [vm_compute; reflexivity|reflexivity].
Defined.

(** C5 on the failing input: a step maximum of [0]. The documentation of
    [max_steps] names [None] as the one value that sets no maximum, and the
    guard of the loop, [not self.max_steps or self.step < self.max_steps],
    takes [0] for it as well: the random and the model-driven agent each
    take the two steps of the sample episode, two more than the maximum. *)
Theorem zero_maximum_is_no_maximum :
  max_steps (self (new RandomAgent (Some 0%Z) no_config two_steps)) = Some 0%Z ∧
  fst (run 5 (new RandomAgent (Some 0%Z) no_config two_steps)) = Some (Ok tt) ∧
  step (self (snd (run 5 (new RandomAgent (Some 0%Z) no_config two_steps)))) = 2 ∧
  fst (run 5 (new LLMAgent (Some 0%Z) (llm 10 true) two_steps)) = Some (Ok tt) ∧
  step (self (snd (run 5 (new LLMAgent (Some 0%Z) (llm 10 true) two_steps)))) = 2 ∧
  ¬ (Z.of_nat (step (self (snd (run 5 (new RandomAgent (Some 0%Z) no_config
                                           two_steps))))) ≤ 0)%Z.
Proof.
  split_and!; try (vm_compute; reflexivity).
  vm_compute. intros Hle. by apply Hle.
Qed.

Lemma steps_within_budget_witness :
  ((Z.of_nat (step (self (snd (run 5 (new LLMAgent (Some 1%Z) (llm 10 true)
                                         two_steps))))) ≤ 1)%Z ∧
   (Z.to_nat 1 ≤ 5 →
    fst (run 5 (new LLMAgent (Some 1%Z) (llm 10 true) two_steps)) ≠ None)) ∧
  step (self (snd (run 5 (new WalkThroughAgent (Some 1%Z) (llm 10 true) two_steps)))) =
    length (fst (env_get_walkthrough (snd (env_reset two_steps)))).
Proof.
  apply (steps_within_budget LLMAgent 1 (Some 1%Z) (llm 10 true) two_steps 5);
    [lia|right; reflexivity].
Defined.

(** C7 as stated fails: after the two steps of the sample episode the
    rewards are logged at the indices 1 and 2, not at 0 and 1. *)
Lemma rewards_are_logged_from_one :
  step (self (snd (run 5 (new RandomAgent None no_config two_steps)))) = 2 ∧
  rewards (self (snd (run 5 (new RandomAgent None no_config two_steps)))) !! 0 = None ∧
  rewards (self (snd (run 5 (new RandomAgent None no_config two_steps)))) !! 2 =
    Some 5%Z ∧
  ¬ (∀ k : nat,
       is_Some (rewards (self (snd (run 5 (new RandomAgent None no_config
                                              two_steps)))) !! k) ↔
       k < step (self (snd (run 5 (new RandomAgent None no_config two_steps))))).
Proof.
  assert (H0 : rewards (self (snd (run 5 (new RandomAgent None no_config two_steps))))
               !! 0 = None) by (vm_compute; reflexivity).
  split_and!; [vm_compute; reflexivity|exact H0|vm_compute; reflexivity|].
  intros Hall. destruct (proj2 (Hall 0)) as [x Hx].
  - vm_compute. lia.
  - rewrite H0 in Hx. discriminate.
Qed.

(** C8 as stated fails: with a window of one, the second selection of the
    sample episode finds five turns and leaves four. *)
Lemma choose_action_changes_history :
  length (chat_history (self (snd (run 1 (new LLMAgent None (llm 1 true) two_steps)))))
    = 5 ∧
  length (chat_history (self (snd (LLMAgent_choose_action ["open door"; "wait"]
            (snd (run 1 (new LLMAgent None (llm 1 true) two_steps)))))))
    = 4 ∧
  chat_history (self (snd (LLMAgent_choose_action ["open door"; "wait"]
            (snd (run 1 (new LLMAgent None (llm 1 true) two_steps)))))) ≠
  chat_history (self (snd (run 1 (new LLMAgent None (llm 1 true) two_steps)))).
Proof.
  split_and!; [vm_compute; reflexivity..|].
  intros Heq. apply (f_equal length) in Heq. vm_compute in Heq. discriminate.
Qed.

Lemma choose_action_only_trims_witness :
  over_window 10 (chat_history (self (new LLMAgent None (llm 10 true) two_steps)))
    = false ∧
  chat_history (self (snd (LLMAgent_choose_action ["go north"; "north"]
                             (new LLMAgent None (llm 10 true) two_steps)))) =
  chat_history (self (new LLMAgent None (llm 10 true) two_steps)).
Proof.
  split; [vm_compute; reflexivity|].
  apply (choose_action_only_trims ["go north"; "north"]
           (new LLMAgent None (llm 10 true) two_steps)).
  vm_compute; reflexivity.
Defined.

Lemma empty_legal_actions_mid_episode_witness :
  fst (run 2 (new RandomAgent None no_config two_steps)) = None ∧
  fst (run 5 (new RandomAgent None no_config two_steps)) = Some (Ok tt) ∧
  info (self (snd (run 5 (new RandomAgent None no_config two_steps)))) =
    Some (info_after 2 5) ∧
  step (self (snd (run 5 (new RandomAgent None no_config two_steps)))) = 2.
Proof.
  split; [vm_compute; reflexivity|].
  destruct (empty_legal_actions_mid_episode RandomAgent None no_config two_steps 2
              (snd (run 2 (new RandomAgent None no_config two_steps)))
              (info_after 2 5)) with (fuel := 5)
    as (Hout & Hinfo & Hstep & _).
  - discriminate.
  - vm_compute; reflexivity.
  - vm_compute; reflexivity.
  - vm_compute; reflexivity.
  - lia.
  - split_and!; [exact Hout|exact Hinfo|].
    rewrite Hstep. vm_compute; reflexivity.
Defined.

Lemma empty_legal_actions_at_first_step_witness :
  fst (env_get_valid_actions (world (new LLMAgent None (llm 10 true) dead_end))) = [] ∧
  fst (run 1 (new LLMAgent None (llm 10 true) dead_end)) =
    Some (Raise UnboundLocalError) ∧
  (EvClose ∉ trace (snd (run 1 (new LLMAgent None (llm 10 true) dead_end)))).
Proof.
  split; [reflexivity|].
  destruct (empty_legal_actions_at_first_step LLMAgent None (llm 10 true) dead_end 0)
    as (Hout & Hclose & _); [discriminate|reflexivity|].
  split; [exact Hout|exact Hclose].
Defined.

(** C4 on the failing input: with a window of zero nothing is evicted. The
    second selection of the sample episode sends all five turns, four more
    than [3 * 0 + 1]. *)
Theorem window_zero_is_not_trimmed :
  (3 * 0 + 1 <
   Z.of_nat (length (chat_history (self (snd (LLMAgent_choose_action
      ["open door"; "wait"]
      (snd (run 1 (new LLMAgent None (llm 0 true) two_steps)))))))))%Z ∧
  length (chat_history (self (snd (LLMAgent_choose_action
      ["open door"; "wait"]
      (snd (run 1 (new LLMAgent None (llm 0 true) two_steps))))))) = 5.
Proof. split; vm_compute; reflexivity. Qed.

(** C6 on the failing inputs: with the fallback enabled, a reply whose
    content is [null] and a reply without choices end the selection with an
    error that the [except] clause does not list. *)
Theorem fallback_misses_malformed_replies :
  fallback_to_random (llm 10 true) = true ∧
  fst (LLMAgent_choose_action ["north"; "south"]
         (new LLMAgent None (llm 10 true) null_content)) = Raise AttributeError ∧
  fst (LLMAgent_choose_action ["north"; "south"]
         (new LLMAgent None (llm 10 true) no_choices)) = Raise IndexError.
Proof. split_and!; vm_compute; reflexivity. Qed.

End SampleRuns.

(** * Further properties of the code *)

(** ** The search of an action in a reply *)

(** X1. On ASCII texts, the search that [choose_action] runs for an action,
    [re.search(rf"\b{re.escape(action)}\b", raw_response, re.IGNORECASE)],
    succeeds exactly when the reply splits into three parts of which the
    middle one is the action up to the case of its letters and has a word
    boundary on each side: a letter, a digit or an underscore on one side of
    the cut and none on the other. *)
Theorem re_search_finds_whole_words (action raw_response : string) :
  is_ascii action = true →
  is_ascii raw_response = true →
  re_search action raw_response = true ↔ whole_word_match action raw_response.
Proof. intros _ _. apply re_search_whole_word. Qed.

Lemma re_search_finds_whole_words_witness :
  is_ascii "key" = true ∧
  is_ascii "Take the KEY, not key_2 or 2key." = true ∧
  whole_word_match "key" "Take the KEY, not key_2 or 2key." ∧
  ¬ whole_word_match "key" "Take key_2 or 2key or Key9.".
Proof.
  split_and!; [reflexivity|reflexivity| |].
  - apply (re_search_finds_whole_words "key" "Take the KEY, not key_2 or 2key.");
      vm_compute; reflexivity.
  - intros Hm.
    apply (re_search_finds_whole_words "key" "Take key_2 or 2key or Key9.") in Hm;
      [|vm_compute; reflexivity|vm_compute; reflexivity].
    vm_compute in Hm. discriminate Hm.
Defined.

(** X2. Stripping the reply, as [choose_action] does before it searches,
    changes the result of the search for no action. *)
Theorem strip_keeps_every_match (action text : string) :
  re_search action (strip text) = re_search action text.
Proof. apply re_search_strip. Qed.

Lemma is_word_lower (c : ascii) : is_word (lower c) = is_word c.
Proof. destruct c as [[] [] [] [] [] [] [] []]; reflexivity. Qed.

Lemma ci_eqb_lower (x y : ascii) : ci_eqb x y = true ↔ lower x = lower y.
Proof. unfold ci_eqb. apply Ascii.eqb_eq. Qed.

Lemma ci_eqb_word (x y : ascii) : ci_eqb x y = true → is_word x = is_word y.
Proof.
  intros Hxy%ci_eqb_lower. by rewrite <- (is_word_lower x), Hxy, is_word_lower.
Qed.

Lemma ci_eqb_trans2 (p p' c c' : ascii) :
  ci_eqb p p' = true → ci_eqb c c' = true → ci_eqb p c = ci_eqb p' c'.
Proof. intros Hp%ci_eqb_lower Hc%ci_eqb_lower. unfold ci_eqb. by rewrite Hp, Hc. Qed.

Lemma ci_equal_head (s s' : string) :
  ci_equal s s' = true → opt_word (head_char s) = opt_word (head_char s').
Proof.
  destruct s, s'; simpl; try done. intros [Hc _]%andb_true_iff. by apply ci_eqb_word.
Qed.

Lemma match_literal_ci (pat pat' : string) :
  ∀ (s s' : string) (prev prev' : option ascii),
    ci_equal pat pat' = true → ci_equal s s' = true →
    opt_word prev = opt_word prev' →
    match_literal prev pat s = match_literal prev' pat' s'.
Proof.
  revert pat'. induction pat as [|p pat IH]; intros [|p' pat'] s s' prev prev' Hp Hs Hw;
    try discriminate; simpl.
  - unfold boundary. by rewrite Hw, (ci_equal_head s s').
  - simpl in Hp. apply andb_true_iff in Hp as [Hp Hpat].
    destruct s as [|c s], s' as [|c' s']; try discriminate; [done|].
    simpl in Hs. apply andb_true_iff in Hs as [Hc Hs].
    rewrite (ci_eqb_trans2 p p' c c') by done.
    f_equal. apply IH; try done. simpl. by apply ci_eqb_word.
Qed.

Lemma search_from_ci (action action' : string) (s : string) :
  ∀ (s' : string) (prev prev' : option ascii),
    ci_equal action action' = true → ci_equal s s' = true →
    opt_word prev = opt_word prev' →
    search_from prev action s = search_from prev' action' s'.
Proof.
  induction s as [|c s IH]; intros [|c' s'] prev prev' Ha Hs Hw; try discriminate.
  - simpl. unfold match_here, boundary. simpl.
    by rewrite Hw, (match_literal_ci action action' EmptyString EmptyString prev prev').
  - pose proof Hs as Hs0. simpl in Hs. apply andb_true_iff in Hs as [Hc Hs].
    cbn [search_from]. unfold match_here, boundary. cbn [head_char opt_word].
    rewrite Hw, (ci_eqb_word c c' Hc).
    rewrite (match_literal_ci action action' (String c s) (String c' s') prev prev')
      by done.
    f_equal. apply IH; try done. simpl. by apply ci_eqb_word.
Qed.

(** X3. The search ignores the case of the letters on both sides: an action
    and a reply may each be replaced by a text that differs in case only. *)
Theorem re_search_ignores_case_of_both (action action' text text' : string) :
  ci_equal action action' = true →
  ci_equal text text' = true →
  re_search action text = re_search action' text'.
Proof. intros Ha Ht. by apply search_from_ci. Qed.

Lemma re_search_ignores_case_of_both_witness :
  ci_equal "Go North" "go north" = true ∧
  ci_equal "I WILL GO NORTH" "i will go north" = true ∧
  re_search "Go North" "I WILL GO NORTH" = re_search "go north" "i will go north".
Proof.
  split_and!; [reflexivity|reflexivity|].
  apply (re_search_ignores_case_of_both "Go North" "go north"
           "I WILL GO NORTH" "i will go north"); reflexivity.
Defined.

Lemma search_empty_action (s : string) :
  ∀ prev : option ascii,
    search_from prev EmptyString s = true ↔
    opt_word prev = true ∨ ∃ c, In c (list_ascii_of_string s) ∧ is_word c = true.
Proof.
  induction s as [|c s IH]; intros prev.
  - simpl. unfold match_here. simpl. unfold boundary. simpl.
    destruct (opt_word prev); simpl; split; try (by left); try done.
    intros [?|(c & [] & _)]. done.
  - cbn [search_from]. rewrite orb_true_iff, IH.
    unfold match_here. cbn [match_literal head_char]. rewrite andb_diag.
    unfold boundary. cbn [opt_word list_ascii_of_string In].
    destruct (opt_word prev) eqn:Hp, (is_word c) eqn:Hc; simpl; split; intros Hx;
      try (by left); try (by right; left);
      try (by right; exists c; split; [left|]).
    + destruct Hx as [?|[?|(c' & Hin & Hw)]]; try done.
      right. exists c'. split; [by right|done].
    + right. right. destruct Hx as [?|(c' & [<-|Hin] & Hw)]; try congruence.
      by exists c'.
Qed.

(** ** The selection of an action *)

Section MorePolicy.
Context {W : Type} `{Externals W}.

(** X5. Every policy returns legal actions only, and a call of it leaves the
    step counter, the three logs and the info of the agent as they are and
    calls the environment not at all: at most the chat history changes and
    at most one request is sent. *)
Theorem choose_action_is_legal_and_framed (valid_actions : list string)
    (st st' : St W) (r : result string) :
  choose_action valid_actions st = (r, st') →
  (∀ action, r = Ok action → action ∈ valid_actions) ∧
  (∃ h, self st' = set_chat_history h (self st)) ∧
  (trace st' = trace st ∨ ∃ req, trace st' = EvPost req :: trace st).
Proof. intros Hrun. apply choose_action_frame in Hrun as (? & ? & ? & _). done. Qed.

Lemma re_search_blank (action text : string) :
  strip text = EmptyString → re_search action (strip text) = false.
Proof. intros ->. by apply search_blank. Qed.

Lemma find_none_blank (valid_actions : list string) (text : string) :
  strip text = EmptyString →
  find (fun action => re_search action (strip text)) valid_actions = None.
Proof.
  intros Hb. induction valid_actions as [|a l IH]; [done|].
  simpl. by rewrite re_search_blank.
Qed.

(** X6. A reply that is empty or blank names no action, whatever the legal
    actions are (an empty action included): without the fallback the
    selection raises the [ValueError] that quotes the empty reply, with the
    fallback it returns a legal action. *)
Theorem blank_reply_names_no_action (valid_actions : list string)
    (o text : string) (st : St W) :
  observations (self st) !! step (self st) = Some o →
  message_content (posted valid_actions o st) = Ok (JStr text) →
  strip text = EmptyString →
  valid_actions ≠ [] →
  if fallback_to_random (config (self st))
  then ∃ action, action ∈ valid_actions ∧
                 fst (LLMAgent_choose_action valid_actions st) = Ok action
  else fst (LLMAgent_choose_action valid_actions st) =
       Raise (ValueError
                ("No valid action found in LLM response and fallback_to_random is "
                 +:+ "False. Raw response: ")).
Proof.
  intros Ho Hcontent Hblank Hne.
  destruct (fallback_to_random (config (self st))) eqn:Hfb.
  - apply (choose_action_fallback _ o); try done.
    intros e. unfold raw_response_of. rewrite Hcontent. discriminate.
  - rewrite (choose_action_no_fallback _ o) by done.
    unfold raw_response_of. rewrite Hcontent. simpl.
    by rewrite find_none_blank, Hblank.
Qed.

(** X4. An empty text among the legal actions shadows every action listed
    after it: when the ASCII reply holds a letter, a digit or an underscore
    and names none of the actions listed before the empty one, the selection
    returns the empty action, whatever the later actions and the reply
    are. *)
Theorem empty_action_shadows_later_actions
    (valid_actions earlier later : list string) (o text : string) (st : St W) :
  observations (self st) !! step (self st) = Some o →
  message_content (posted valid_actions o st) = Ok (JStr text) →
  valid_actions = earlier ++ EmptyString :: later →
  is_ascii text = true →
  (∀ a, a ∈ earlier → is_ascii a = true) →
  (∃ c, In c (list_ascii_of_string text) ∧ word_character c) →
  (∀ a, a ∈ earlier → ¬ whole_word_match a text) →
  fst (LLMAgent_choose_action valid_actions st) = Ok EmptyString.
Proof.
  intros Ho Hcontent -> _ _ (c & Hin & Hc) Hearlier.
  rewrite (LLMAgent_choose_action_eq _ o) by done. cbv zeta.
  unfold raw_response_of. rewrite Hcontent. simpl.
  rewrite find_first; [done| |].
  - rewrite re_search_strip. unfold re_search. apply search_empty_action.
    right. exists c. by rewrite is_word_spec.
  - intros a Ha. apply not_true_is_false.
    rewrite re_search_strip, re_search_whole_word. by apply Hearlier.
Qed.

(** X7. With the fallback disabled nothing is chosen at random. An error of
    the request or of the reading of the reply leaves [choose_action] as it
    is; an ASCII reply in which no legal action occurs as a whole word gives
    the [ValueError] that quotes the stripped reply. *)
Theorem selection_without_fallback (valid_actions : list string) (o : string)
    (st : St W) :
  observations (self st) !! step (self st) = Some o →
  fallback_to_random (config (self st)) = false →
  (∀ e, raw_response_of (posted valid_actions o st) = Raise e →
        fst (LLMAgent_choose_action valid_actions st) = Raise e) ∧
  (∀ text,
     message_content (posted valid_actions o st) = Ok (JStr text) →
     is_ascii text = true →
     (∀ a, a ∈ valid_actions → is_ascii a = true) →
     (∀ a, a ∈ valid_actions → ¬ whole_word_match a text) →
     fst (LLMAgent_choose_action valid_actions st) =
     Raise (ValueError
              ("No valid action found in LLM response and fallback_to_random is "
               +:+ "False. Raw response: " +:+ strip text))).
Proof.
  intros Ho Hfb. rewrite (choose_action_no_fallback _ o) by done. split.
  - by intros e ->.
  - intros text Hcontent _ _ Hnone.
    unfold raw_response_of. rewrite Hcontent. simpl.
    destruct (find _ valid_actions) as [a|] eqn:Hfind; [|done].
    apply find_some in Hfind as [Hin Hs].
    rewrite re_search_strip, re_search_whole_word in Hs.
    destruct (Hnone a); [|done]. by apply list_elem_of_In.
Qed.

(** X8. With the fallback enabled, a request that fails with an error of
    the [except] clause ([RequestException], [KeyError], [ValueError]) or a
    reply that names no action ends in a legal action all the same. *)
Theorem selection_with_fallback (valid_actions : list string) (o : string)
    (st : St W) :
  observations (self st) !! step (self st) = Some o →
  valid_actions ≠ [] →
  fallback_to_random (config (self st)) = true →
  (∀ e, raw_response_of (posted valid_actions o st) = Raise e → handled e = true) →
  ∃ action, action ∈ valid_actions ∧
            fst (LLMAgent_choose_action valid_actions st) = Ok action.
Proof. apply choose_action_fallback. Qed.

(** X9. The content of the reply of the service is read as a text exactly
    when its status is not an error status (400 to 599) and its body is a
    JSON object whose ["choices"] is a list that starts with an object whose
    ["message"] is an object whose ["content"] is that text; and the reply
    gives a raw response exactly when its content is read as a text. *)
Theorem reply_is_read_iff_well_formed (posted : option response) :
  (∀ text : string,
     message_content posted = Ok (JStr text) ↔
     ∃ (status : Z) (d c m : gmap string json) (rest : list json),
       posted = Some (Response status (Some (JDict d))) ∧
       ¬ (400 ≤ status < 600)%Z ∧
       d !! "choices" = Some (JList (JDict c :: rest)) ∧
       c !! "message" = Some (JDict m) ∧
       m !! "content" = Some (JStr text)) ∧
  ((∃ raw : string, raw_response_of posted = Ok raw) ↔
   (∃ text : string, message_content posted = Ok (JStr text))).
Proof.
  split.
  - intros text.
    unfold message_content, and_then, raise_for_status,
      response_json, getitem_str, getitem_0.
    split.
    + intros Hraw.
      destruct posted as [[status [j|]]|]; simpl in Hraw; try discriminate;
        repeat (case_match; simplify_eq; try discriminate).
      eexists status, _, _, _, _. split_and!; try done.
      intros [? ?].
      match goal with Hs : (_ && _)%bool = false |- _ =>
        apply andb_false_iff in Hs as [Hs|Hs]; lia end.
    + intros (status & d & c & m & rest & -> & Hs & Hd & Hc & Hm). simpl.
      destruct ((400 <=? status)%Z && (status <? 600)%Z) eqn:Hst.
      * apply andb_true_iff in Hst as [? ?]. lia.
      * by rewrite Hd, Hc, Hm.
  - unfold raw_response_of, and_then, json_strip. split.
    + intros [raw Hraw]. destruct (message_content posted) as [[]|]; try discriminate.
      eauto.
    + intros [text ->]. eauto.
Qed.

End MorePolicy.

(** ** The window on the chat history *)

Section MoreHistory.
Context {W : Type} `{Externals W}.

(** X10. For a window of at least one the history that [choose_action]
    leaves, and sends, has at most [3 * window + 1] turns, whatever history
    it finds. *)
Theorem trimmed_history_is_bounded (window : Z) (h : list message) :
  (1 ≤ window)%Z →
  (Z.of_nat (length (trim window h)) ≤ 3 * window + 1)%Z.
Proof. apply trim_length. Qed.

(** X11. For a window of at least one, the trim keeps the system turn and
    the newest turns: of a history that starts with the system turn it
    evicts a prefix of the turns that follow and keeps [3 * window] of them,
    or all when there are fewer. *)
Theorem trim_keeps_newest_turns (window : Z) (t : list message) :
  (1 ≤ window)%Z →
  ∃ evicted kept,
    t = evicted ++ kept ∧
    trim window (system_message :: t) = system_message :: kept ∧
    Z.of_nat (length kept) = Z.min (Z.of_nat (length t)) (3 * window).
Proof.
  intros Hw. unfold trim, over_window. simpl length.
  destruct (Z.of_nat (S (length t)) >? window * 3)%Z eqn:Hover;
    rewrite Z.gtb_ltb in Hover;
    [apply Z.ltb_lt in Hover|apply Z.ltb_ge in Hover].
  - unfold trimmed. rewrite slice_from_1. unfold slice_from.
    eexists (take _ t), (drop _ t). rewrite take_drop. split_and!; [done|done|].
    rewrite length_drop. destruct (- window * 3 <? 0)%Z eqn:?; lia.
  - exists [], t. split_and!; [done|done|]. lia.
Qed.

Lemma slice_from_neg_twice {A} (m : Z) (l : list A) :
  (0 ≤ m)%Z → slice_from (- m) (slice_from (- m) l) = slice_from (- m) l.
Proof.
  intros Hm. destruct (decide (m = 0%Z)) as [->|Hne].
  - change (- 0)%Z with 0%Z. by rewrite !slice_from_0.
  - pose proof (length_slice_from_neg m l) as Hlen.
    generalize dependent (slice_from (- m) l). intros k Hlen.
    unfold slice_from. replace (Z.to_nat _) with 0; [done|].
    destruct (- m <? 0)%Z eqn:?; lia.
Qed.

(** X12. For a window that is not negative the trim is idempotent: a second
    trim of a trimmed history changes nothing. *)
Theorem trim_twice (window : Z) (h : list message) :
  (0 ≤ window)%Z →
  trim window (trim window h) = trim window h.
Proof.
  intros Hw. unfold trim at 2.
  destruct (over_window window h) eqn:Hover.
  - unfold trim, trimmed.
    cbn [app]. rewrite slice_from_1.
    replace (- window * 3)%Z with (- (window * 3))%Z by lia.
    rewrite slice_from_neg_twice by lia. rewrite Hover. by case_match.
  - unfold trim. by rewrite Hover.
Qed.

Lemma choose_action_LLMAgent (valid_actions : list string) (st : St W) :
  cls (self st) = LLMAgent →
  choose_action valid_actions st = LLMAgent_choose_action valid_actions st.
Proof. intros Hc. unfold choose_action, bind, get. by rewrite Hc. Qed.

Lemma stepped_frame (action : string) (st : St W) :
  cls (self (stepped action st)) = cls (self st) ∧
  config (self (stepped action st)) = config (self st) ∧
  length (chat_history (self (stepped action st))) ≤
    length (chat_history (self st)) + 3.
Proof.
  unfold stepped. destruct (env_step action (world st)) as [[[[o r] d] i] w']. simpl.
  split_and!; [done|done|].
  destruct (cls (self st)); rewrite ?length_app; simpl; lia.
Qed.

(** X13. For a window of at least one, the chat history that an [LLMAgent]
    stores never has more than [3 * window + 4] turns at a step boundary of
    an episode: the trim of a selection leaves at most [3 * window + 1] and
    the bookkeeping of the step appends three. *)
Theorem stored_history_is_bounded (ms : option Z) (cfg : llm_config) (w : W)
    (fuel : nat) :
  (1 ≤ max_chat_history_size cfg)%Z →
  (Z.of_nat (length (chat_history (self (snd (run fuel (new LLMAgent ms cfg w))))))
   ≤ 3 * max_chat_history_size cfg + 4)%Z.
Proof.
  intros Hw.
  assert (Hrun : run fuel (new LLMAgent ms cfg w) = Agent_run fuel (new LLMAgent ms cfg w)).
  { unfold run. rewrite new_eq. by destruct (env_reset w) as [[o i] w']. }
  rewrite Hrun. unfold Agent_run.
  set (P := fun s : St W =>
              cls (self s) = LLMAgent ∧ config (self s) = cfg ∧
              (Z.of_nat (length (chat_history (self s)))
               ≤ 3 * max_chat_history_size cfg + 4)%Z).
  assert (Hloop : P (snd (while_loop fuel (Locals false None) (new LLMAgent ms cfg w)))).
  { apply (while_loop_ind (fun _ => P) (fun _ => P)); [done|done| |].
    - clear -Hw. intros l st (Hc & Hcfg & Hlen) _.
      destruct (loop_body_cases l st) as [[_ ->]|(_ & r & st2 & Hch & ->)]; [done|].
      rewrite choose_action_LLMAgent in Hch by done.
      apply LLMAgent_choose_action_frame in Hch as (Hself & _). simpl in Hself.
      assert (Hc2 : cls (self st2) = LLMAgent) by (by rewrite Hself).
      assert (Hcfg2 : config (self st2) = cfg) by (by rewrite Hself).
      assert (Hlen2 : (Z.of_nat (length (chat_history (self st2)))
                       ≤ 3 * max_chat_history_size cfg + 1)%Z).
      { rewrite Hself. simpl. rewrite Hcfg. by apply trim_length. }
      destruct r as [a|e].
      + destruct (stepped_frame a st2) as (Hc3 & Hcfg3 & Hle). unfold P.
        rewrite Hc3, Hcfg3. split_and!; [done|done|lia].
      + unfold P. split_and!; [done|done|lia].
    - unfold P. rewrite new_eq. destruct (env_reset w) as [[o i] w']. simpl.
      split_and!; [done|done|lia]. }
  destruct (while_loop fuel _ _) as [[[l|e]|] st']; simpl in *;
    destruct Hloop as (_ & _ & Hlen); try done.
  rewrite finish_eq. by destruct (l_info l).
Qed.

(** X14. At every step boundary of the episode of an [LLMAgent] the chat
    history starts with the system turn and holds no other turn of the
    system role. *)
Theorem system_turn_is_first_and_only (ms : option Z) (cfg : llm_config) (w : W)
    (fuel : nat) :
  ∃ t, chat_history (self (snd (run fuel (new LLMAgent ms cfg w)))) =
         system_message :: t ∧
       Forall (fun m => role m ≠ "system") t.
Proof. apply history_ok_run. Qed.

End MoreHistory.

(** ** The episode and its trace *)

Section MoreDriver.
Context {W : Type} `{Externals W}.

Lemma run_is_Agent_run (c : agent_class) (ms : option Z) (cfg : llm_config)
    (w : W) (fuel : nat) :
  c ≠ WalkThroughAgent →
  run fuel (new c ms cfg w) = Agent_run fuel (new c ms cfg w).
Proof.
  intros Hc. unfold run. rewrite new_eq.
  destruct (env_reset w) as [[o i] w']. by destruct c.
Qed.

Lemma Agent_run_post (P : St W → Prop) (fuel : nat) (st : St W) :
  P (snd (while_loop fuel (Locals false None) st)) →
  (∀ l s, P s → P (snd (finish l s))) →
  P (snd (Agent_run fuel st)).
Proof.
  intros Hloop Hfin. unfold Agent_run.
  destruct (while_loop fuel _ st) as [[[l|e]|] st']; simpl in *; try done.
  specialize (Hfin l st' Hloop). by destruct (finish l st').
Qed.

Lemma stepped_steps_done (action : string) (st : St W) :
  steps_done (trace (stepped action st)) =
  l_done (step_locals action st) :: steps_done (trace st).
Proof.
  unfold stepped, step_locals.
  by destruct (env_step action (world st)) as [[[[o r] d] i] w'].
Qed.

Lemma finish_trace (l : locals) (st : St W) :
  trace (snd (finish l st)) = trace st ∨
  trace (snd (finish l st)) = EvClose :: trace st.
Proof. rewrite finish_eq. destruct (l_info l); simpl; eauto. Qed.

(** X15. [Agent.run] takes no step after the environment said the game is
    over: of the [done] flags that [env.step] returned in an episode, only
    the newest can be set. *)
Theorem no_step_after_done (c : agent_class) (ms : option Z) (cfg : llm_config)
    (w : W) (fuel : nat) :
  c ≠ WalkThroughAgent →
  Forall (fun d => d = false)
         (tail (steps_done (trace (snd (run fuel (new c ms cfg w)))))).
Proof.
  intros Hc. rewrite run_is_Agent_run by done.
  apply (Agent_run_post
           (fun s => Forall (fun d => d = false) (tail (steps_done (trace s))))).
  - set (P := fun (l : locals) (s : St W) =>
                Forall (fun d => d = false) (tail (steps_done (trace s))) ∧
                (l_done l = false →
                 Forall (fun d => d = false) (steps_done (trace s)))).
    apply (while_loop_ind P (fun _ s => Forall (fun d => d = false)
                                          (tail (steps_done (trace s))))).
    + by intros l st [? _] _.
    + by intros l st [? _] _.
    + clear. intros l st [_ Hall] Hcond.
      assert (Hd : l_done l = false).
      { unfold loop_cond in Hcond. by destruct (l_done l). }
      specialize (Hall Hd).
      destruct (loop_body_cases l st) as [[_ ->]|(_ & r & st2 & Hch & ->)].
      * simpl. by apply Forall_tail.
      * apply choose_action_frame in Hch as (_ & Htr & _). simpl in Htr.
        assert (Hall2 : Forall (fun d => d = false) (steps_done (trace st2))).
        { by destruct Htr as [-> | [req ->]]. }
        destruct r as [a|e]; [|by apply Forall_tail].
        unfold P. rewrite stepped_steps_done. simpl. split; [done|].
        intros Hd'. by apply Forall_cons.
    + unfold P. rewrite new_trace. simpl. split; [done|]. by intros _.
  - intros l s Hs. by destruct (finish_trace l s) as [-> | ->].
Qed.

Lemma legal_steps_stepped (action : string) (st : St W) :
  match trace st with
  | EvValidActions va :: _ => action ∈ va
  | EvPost _ :: EvValidActions va :: _ => action ∈ va
  | _ => False
  end →
  legal_steps (trace st) →
  legal_steps (trace (stepped action st)).
Proof.
  intros Hin Hl. unfold stepped.
  by destruct (env_step action (world st)) as [[[[o r] d] i] w'].
Qed.

(** X16. [Agent.run] applies legal actions only: every action that it
    passes to [env.step] is a member of the answer that
    [env.get_valid_actions] gave in the same iteration. *)
Theorem every_step_is_legal (c : agent_class) (ms : option Z) (cfg : llm_config)
    (w : W) (fuel : nat) :
  c ≠ WalkThroughAgent →
  legal_steps (trace (snd (run fuel (new c ms cfg w)))).
Proof.
  intros Hc. rewrite run_is_Agent_run by done.
  apply (Agent_run_post (fun s => legal_steps (trace s))).
  - apply (while_loop_ind (fun _ s => legal_steps (trace s))
                          (fun _ s => legal_steps (trace s))); [done|done| |].
    + clear. intros l st Hl _.
      destruct (loop_body_cases l st) as [[_ ->]|(_ & r & st2 & Hch & ->)]; [done|].
      apply choose_action_frame in Hch as (_ & Htr & Hmem & _). simpl in Htr.
      assert (Hl2 : legal_steps (trace st2)).
      { by destruct Htr as [-> | [req ->]]. }
      destruct r as [a|e]; [|done].
      apply legal_steps_stepped; [|done].
      specialize (Hmem a eq_refl). by destruct Htr as [-> | [req ->]].
    + by rewrite new_trace.
  - intros l s Hs. by destruct (finish_trace l s) as [-> | ->].
Qed.

End MoreDriver.

Section MoreLogs.
Context {W : Type} `{Externals W}.

(** A property of the states that every operation of an episode keeps holds
    however far [run] gets. *)
Lemma run_invariant (P : St W → Prop) (fuel : nat) (st : St W) :
  (∀ s, P s → P (State (self s) (snd (env_get_valid_actions (world s)))
                       (EvValidActions (fst (env_get_valid_actions (world s)))
                          :: trace s))) →
  (∀ s, P s → P (State (self s) (snd (env_get_walkthrough (world s)))
                       (EvWalkthrough :: trace s))) →
  (∀ va s r s', P s → choose_action va s = (r, s') → P s') →
  (∀ a s, P s → P (stepped a s)) →
  (∀ l s, P s → P (snd (finish l s))) →
  P st → P (snd (run fuel st)).
Proof.
  intros Hvalid Hwalk Hchoose Hstep Hfin HP. unfold run.
  assert (Hagent : P (snd (Agent_run fuel st))).
  { apply (Agent_run_post P); [|done].
    apply (while_loop_ind (fun _ => P) (fun _ => P)); [done|done| |done].
    intros l s Hs _.
    destruct (loop_body_cases l s) as [[_ ->]|(_ & r & s2 & Hch & ->)];
      [by apply Hvalid|].
    apply Hchoose in Hch; [|by apply Hvalid].
    destruct r; [by apply Hstep|done]. }
  destruct (cls (self st)); try exact Hagent.
  unfold WalkThroughAgent_run, bind, call, log, modify.
  destruct (env_get_walkthrough (world st)) as [script w'] eqn:Hs; simpl.
  specialize (Hwalk st HP). rewrite Hs in Hwalk. simpl in Hwalk.
  assert (Hrep : ∀ script l s, P s → P (snd (replay script l s))).
  { clear -Hstep. induction script as [|a script IH]; intros l s Hs;
      rewrite replay_eq; [done|]. by apply IH, Hstep. }
  specialize (Hrep script (Locals false None) _ Hwalk).
  destruct (replay script _ _) as [[l|e] s']; simpl in *; [|done].
  specialize (Hfin l s' Hrep). by destruct (finish l s').
Qed.

Lemma logs_follow_stepped (action : string) (st : St W) :
  logs_follow (self st) (trace st) →
  logs_follow (self (stepped action st)) (trace (stepped action st)).
Proof.
  intros [Hlen Hlogs]. unfold stepped.
  destruct (env_step action (world st)) as [[[[o r] d] i] w']. split; simpl.
  - rewrite Hlen. lia.
  - intros k a' o' r'. rewrite reverse_cons, lookup_app_Some.
    rewrite length_reverse, Hlen.
    intros [Hold | [Hge Hnew]].
    + pose proof (lookup_lt_Some _ _ _ Hold) as Hlt.
      rewrite length_reverse, Hlen in Hlt.
      destruct (Hlogs k a' o' r' Hold) as (Ha & Hr & Ho).
      rewrite !lookup_insert_ne by lia. done.
    + destruct (k - step (self st)) as [|j] eqn:Hk; [|done].
      assert (k = step (self st)) as -> by lia.
      simpl in Hnew. injection Hnew as <- <- <-.
      by rewrite !lookup_insert_eq.
Qed.

(** X17. The logs of the agent are the record of the [env.step] calls: the
    step counter counts them, and the action logged at index [k] is the
    action of the call number [k], the reward and the observation logged at
    index [k + 1] are what that call returned; index 0 of the observations
    holds the observation of [env.reset]. *)
Theorem logs_record_the_steps (c : agent_class) (ms : option Z)
    (cfg : llm_config) (w : W) (fuel : nat) :
  let st' := snd (run fuel (new c ms cfg w)) in
  length (step_events (trace st')) = step (self st') ∧
  observations (self st') !! 0 = Some (fst (fst (env_reset w))) ∧
  ∀ (k : nat) (action observation : string) (reward : Z),
    reverse (step_events (trace st')) !! k = Some (action, observation, reward) →
    actions (self st') !! k = Some action ∧
    rewards (self st') !! (k + 1) = Some reward ∧
    observations (self st') !! (k + 1) = Some observation.
Proof.
  cbv zeta.
  set (P := fun s : St W =>
              logs_follow (self s) (trace s) ∧
              observations (self s) !! 0 = Some (fst (fst (env_reset w)))).
  assert (HP : P (snd (run fuel (new c ms cfg w)))).
  { apply run_invariant; unfold P; try done.
    - intros va s r s' [Hl Ho] Hch.
      apply choose_action_frame in Hch as ([h Hself] & Htr & _).
      rewrite Hself. split; [|done]. by destruct Htr as [-> | [req ->]].
    - intros a s [Hl Ho]. split; [by apply logs_follow_stepped|].
      unfold stepped. destruct (env_step a (world s)) as [[[[o r] d] i] w']. simpl.
      rewrite lookup_insert_ne by lia. done.
    - intros l s [Hl Ho]. rewrite finish_eq. by destruct (l_info l).
    - rewrite new_eq. destruct (env_reset w) as [[o i] w']. simpl.
      split; [|done]. split; [done|]. by intros k a o' r [=]. }
  destruct HP as [[Hlen Hlogs] Ho]. done.
Qed.

(** X18. At every step boundary of an episode the observations are logged
    exactly at the indices [0..step]: the observation of the current step is
    always there for the selection to read. *)
Theorem observations_logged_up_to_step (c : agent_class) (ms : option Z)
    (cfg : llm_config) (w : W) (fuel : nat) (k : nat) :
  is_Some (observations (self (snd (run fuel (new c ms cfg w)))) !! k) ↔
  k ≤ step (self (snd (run fuel (new c ms cfg w)))).
Proof.
  pose proof (logs_at_run fuel (new c ms cfg w) (logs_at_new c ms cfg w))
    as (_ & _ & Ho).
  rewrite <- elem_of_dom, Ho, elem_of_set_seq. lia.
Qed.

(** X19. With a negative [max_steps] the loop of [Agent.run] is not entered:
    [run] raises [UnboundLocalError] at once, having called neither the
    environment nor the policy. *)
Theorem negative_max_steps (c : agent_class) (m : Z) (cfg : llm_config) (w : W)
    (fuel : nat) :
  c ≠ WalkThroughAgent →
  (m < 0)%Z →
  run fuel (new c (Some m) cfg w) =
  (Some (Raise UnboundLocalError), new c (Some m) cfg w).
Proof.
  intros Hc Hm. rewrite run_is_Agent_run by done. unfold Agent_run.
  assert (Hcond : loop_cond (Locals false None) (self (new c (Some m) cfg w)) = false).
  { rewrite new_eq. destruct (env_reset w) as [[o i] w']. unfold loop_cond. simpl.
    replace (m =? 0)%Z with false by (symmetry; apply Z.eqb_neq; lia).
    simpl. apply Z.ltb_ge. lia. }
  destruct fuel; simpl; by rewrite Hcond.
Qed.

(** X20. The base class has no policy: when an action is legal at the first
    step and [max_steps] is not negative, [run] of an [Agent] raises
    [NotImplementedError] before any step, and the environment stays open. *)
Theorem base_agent_cannot_run (ms : option Z) (cfg : llm_config) (w : W)
    (fuel : nat) :
  (∀ m, ms = Some m → (0 ≤ m)%Z) →
  fst (env_get_valid_actions (world (new Agent_ ms cfg w))) ≠ [] →
  fst (run (S fuel) (new Agent_ ms cfg w)) = Some (Raise NotImplementedError) ∧
  step (self (snd (run (S fuel) (new Agent_ ms cfg w)))) = 0 ∧
  (EvClose ∉ trace (snd (run (S fuel) (new Agent_ ms cfg w)))).
Proof.
  intros Hms Hne. rewrite run_is_Agent_run by done. unfold Agent_run. simpl.
  assert (Hcond : loop_cond (Locals false None) (self (new Agent_ ms cfg w)) = true).
  { rewrite new_eq. destruct (env_reset w) as [[o i] w']. unfold loop_cond. simpl.
    destruct ms as [m|]; [|done]. specialize (Hms m eq_refl).
    destruct (Z.eqb_spec m 0); simpl; [done|]. apply Z.ltb_lt. lia. }
  rewrite Hcond.
  destruct (loop_body_cases (Locals false None) (new Agent_ ms cfg w))
    as [[Hva _]|(_ & r & st2 & Hch & ->)]; [done|].
  unfold choose_action, bind, get in Hch. simpl in Hch.
  assert (Hcls : cls (self (new Agent_ ms cfg w)) = Agent_)
    by (rewrite new_eq; by destruct (env_reset w) as [[o i] w']).
  rewrite Hcls in Hch. injection Hch as <- <-. simpl.
  rewrite new_trace.
  assert (Hst : step (self (new Agent_ ms cfg w)) = 0)
    by (rewrite new_eq; by destruct (env_reset w) as [[o i] w']).
  split_and!; [done|done|].
  rewrite !not_elem_of_cons. split_and!; (done || apply not_elem_of_nil).
Qed.

End MoreLogs.

Section MoreVariants.
Context {W : Type} `{Externals W}.

Lemma replay_actions (script : list string) :
  ∀ (l : locals) (st : St W),
    (∀ k, step (self st) ≤ k → actions (self st) !! k = None) →
    (∀ j, j < step (self st) →
       actions (self (snd (replay script l st))) !! j = actions (self st) !! j) ∧
    (∀ k, actions (self (snd (replay script l st))) !! (step (self st) + k) =
          script !! k).
Proof.
  induction script as [|a script IH]; intros l st Hfresh; rewrite replay_eq.
  - split; [done|]. intros k. simpl. apply Hfresh. lia.
  - assert (Hst : step (self (stepped a st)) = step (self st) + 1 ∧
                  actions (self (stepped a st)) =
                    <[step (self st) := a]> (actions (self st))).
    { unfold stepped. by destruct (env_step a (world st)) as [[[[o r] d] i] w']. }
    destruct Hst as [Hstep Hact].
    destruct (IH (step_locals a st) (stepped a st)) as [HA HB].
    { intros k Hk. rewrite Hact, lookup_insert_ne by lia. apply Hfresh. lia. }
    rewrite Hstep in HA, HB. split.
    + intros j Hj. rewrite HA by lia. rewrite Hact, lookup_insert_ne by lia. done.
    + intros [|k].
      * rewrite Nat.add_0_r, HA by lia. by rewrite Hact, lookup_insert_eq.
      * replace (step (self st) + S k) with (step (self st) + 1 + k) by lia.
        by rewrite HB.
Qed.

Lemma replay_binds_info (script : list string) :
  ∀ (l : locals) (st : St W),
    (script ≠ [] ∨ is_Some (l_info l)) →
    ∃ l' st', replay script l st = (Ok l', st') ∧ is_Some (l_info l').
Proof.
  induction script as [|a script IH]; intros l st Hb; rewrite replay_eq.
  - destruct Hb as [?|?]; [done|]. eauto.
  - apply IH. right. unfold step_locals.
    by destruct (env_step a (world st)) as [[[[o r] d] i] w'].
Qed.

(** X21. The walkthrough agent replays the whole walkthrough, whatever the
    [done] flags and [max_steps] are: a walkthrough that is not empty ends
    in a normal return with the environment closed, and the action logged
    at every index is the action of the walkthrough at that index. *)
Theorem walkthrough_is_replayed (ms : option Z) (cfg : llm_config) (w : W)
    (fuel : nat) :
  let script := fst (env_get_walkthrough (snd (env_reset w))) in
  let out := run fuel (new WalkThroughAgent ms cfg w) in
  script ≠ [] →
  fst out = Some (Ok tt) ∧
  (∃ tr, trace (snd out) = EvClose :: tr) ∧
  ∀ k, actions (self (snd out)) !! k = script !! k.
Proof.
  cbv zeta. intros Hne. unfold run. rewrite new_eq.
  destruct (env_reset w) as [[o i] w']; simpl in *.
  unfold WalkThroughAgent_run, bind, call, log, modify; simpl.
  destruct (env_get_walkthrough w') as [script w''] eqn:Hs; simpl in *.
  set (st0 := State (AgentObj WalkThroughAgent ms 0 {[0 := o]} ∅ ∅ None cfg [])
                    w'' [EvWalkthrough; EvReset]).
  destruct (replay_binds_info script (Locals false None) st0 (or_introl Hne))
    as (l' & st' & Hrep & [i' Hi']).
  destruct (replay_actions script (Locals false None) st0) as [_ HB]; [done|].
  rewrite Hrep in HB |- *. simpl in HB.
  rewrite finish_eq, Hi'. simpl. split_and!; [done|by eexists|done].
Qed.

(** X22. An empty walkthrough leaves the local [info] of
    [WalkThroughAgent.run] unbound: [run] raises [UnboundLocalError] without
    a step and without closing the environment. *)
Theorem empty_walkthrough (ms : option Z) (cfg : llm_config) (w : W) (fuel : nat) :
  fst (env_get_walkthrough (snd (env_reset w))) = [] →
  fst (run fuel (new WalkThroughAgent ms cfg w)) = Some (Raise UnboundLocalError) ∧
  step (self (snd (run fuel (new WalkThroughAgent ms cfg w)))) = 0 ∧
  trace (snd (run fuel (new WalkThroughAgent ms cfg w))) = [EvWalkthrough; EvReset].
Proof.
  intros Hs. unfold run. rewrite new_eq.
  destruct (env_reset w) as [[o i] w']; simpl in *.
  unfold WalkThroughAgent_run, bind, call, log, modify; simpl.
  destruct (env_get_walkthrough w') as [script w'']; simpl in *. by subst script.
Qed.

(** X23. The episode of a [RandomAgent] ends in one of two ways only: a
    normal return after at least one step, or [UnboundLocalError] when no
    step was taken; the policy itself never fails, since the loop asks it
    for an action of a list that is not empty. *)
Theorem random_agent_outcomes (ms : option Z) (cfg : llm_config) (w : W)
    (fuel : nat) (r : result unit) (st' : St W) :
  run fuel (new RandomAgent ms cfg w) = (Some r, st') →
  (r = Ok tt ∧ 1 ≤ step (self st')) ∨
  (r = Raise UnboundLocalError ∧ step (self st') = 0).
Proof.
  rewrite run_is_Agent_run by done. unfold Agent_run.
  set (P := fun (l : locals) (s : St W) =>
              cls (self s) = RandomAgent ∧
              (l_info l = None ↔ step (self s) = 0)).
  set (Q := fun (out : option (result locals)) (s : St W) =>
              match out with
              | Some (Ok l) => l_info l = None ↔ step (self s) = 0
              | Some (Raise _) => False
              | None => True
              end).
  assert (Hloop : Q (fst (while_loop fuel (Locals false None) (new RandomAgent ms cfg w)))
                    (snd (while_loop fuel (Locals false None) (new RandomAgent ms cfg w)))).
  { apply (while_loop_ind P Q).
    - by intros l s [_ ?] _.
    - done.
    - clear. intros l s [Hc Hi] _.
      destruct (loop_body_cases l s) as [[_ ->]|(Hne & r & s2 & Hch & ->)]; [done|].
      pose proof Hch as Hframe.
      apply choose_action_frame in Hframe as ([h Hself] & _).
      unfold choose_action, bind, get in Hch. simpl in Hch. rewrite Hc in Hch.
      unfold RandomAgent_choose_action in Hch.
      destruct (random_choice_member _ (State (self s)
                  (snd (env_get_valid_actions (world s)))
                  (EvValidActions (fst (env_get_valid_actions (world s))) :: trace s))
                  Hne) as (a & _ & Ha).
      rewrite Ha in Hch. assert (r = Ok a) as -> by congruence. clear Hch Ha.
      destruct (stepped_frame a s2) as (Hc' & _ & _).
      destruct (max_steps_stepped a s2) as (_ & Hstep).
      unfold P. rewrite Hc', Hstep, Hself. simpl. split; [done|].
      unfold step_locals.
      destruct (env_step a (world s2)) as [[[[o rw] d] i] w']. simpl.
      split; [done|lia].
    - unfold P. rewrite new_eq. by destruct (env_reset w) as [[o i] w']. }
  destruct (while_loop fuel _ _) as [[[l|e]|] s1]; simpl in *; try done.
  rewrite finish_eq. destruct (l_info l) as [i|] eqn:Hl; intros [= <- <-]; simpl.
  - left. split; [done|]. destruct (step (self s1)); [|lia].
    destruct Hloop as [_ Hx]. by specialize (Hx eq_refl).
  - right. split; [done|]. by apply Hloop.
Qed.

End MoreVariants.

(** ** The names and the paths of the games *)

Lemma split_nonempty (sep : ascii) (s : string) : split sep s ≠ [].
Proof.
  destruct s as [|c s]; simpl; [done|].
  destruct (Ascii.eqb c sep); [done|]. by destruct (split sep s).
Qed.

(** [(a + sep + b).split(sep) == a.split(sep) + b.split(sep)] *)
Lemma split_app (sep : ascii) (a b : string) :
  split sep (a +:+ String sep b) = split sep a ++ split sep b.
Proof.
  induction a as [|c a IH].
  - rewrite append_empty_l. simpl. by rewrite Ascii.eqb_refl.
  - rewrite append_cons. simpl. rewrite IH.
    destruct (Ascii.eqb c sep); [done|].
    pose proof (split_nonempty sep a). by destruct (split sep a).
Qed.

Lemma split_whole (sep : ascii) (s : string) :
  has_char sep s = false → split sep s = [s].
Proof.
  induction s as [|c s IH]; simpl; [done|].
  intros [Hc Hs]%orb_false_iff. by rewrite Hc, IH.
Qed.

Lemma has_char_app (c : ascii) (a b : string) :
  has_char c (a +:+ b) = has_char c a || has_char c b.
Proof.
  induction a as [|x a IH]; [done|].
  rewrite append_cons. simpl. by rewrite IH, orb_assoc.
Qed.

(** No part of a split holds the separator, nor a character that the text
    does not hold. *)
Lemma split_parts (sep : ascii) (s : string) :
  ∀ x, x ∈ split sep s →
    has_char sep x = false ∧ ∀ c, has_char c x = true → has_char c s = true.
Proof.
  induction s as [|c s IH]; intros x Hx; simpl in Hx.
  - apply list_elem_of_singleton in Hx as ->. done.
  - destruct (Ascii.eqb c sep) eqn:Hc.
    + apply elem_of_cons in Hx as [->|Hx]; [done|].
      destruct (IH x Hx) as [? Hsub]. split; [done|].
      intros c' Hc'. simpl. by rewrite (Hsub c' Hc'), orb_true_r.
    + pose proof (split_nonempty sep s) as Hne.
      destruct (split sep s) as [|y rest] eqn:Hs; [done|].
      apply elem_of_cons in Hx as [->|Hx].
      * destruct (IH y) as [Hy Hsub]; [apply list_elem_of_here|].
        simpl. rewrite Hc, Hy. split; [done|].
        intros c' [Hc'|Hc']%orb_true_iff; simpl.
        -- by rewrite Hc'.
        -- by rewrite (Hsub c' Hc'), orb_true_r.
      * destruct (IH x) as [? Hsub]; [by apply list_elem_of_further|].
        split; [done|]. intros c' Hc'. simpl. by rewrite (Hsub c' Hc'), orb_true_r.
Qed.

Lemma getitem_last_split (sep : ascii) (s : string) :
  ∃ x, getitem_last (split sep s) = Ok x ∧ x ∈ split sep s.
Proof.
  unfold getitem_last. pose proof (split_nonempty sep s) as Hne.
  destruct (last (split sep s)) as [x|] eqn:Hl.
  - exists x. split; [done|]. apply last_Some in Hl as [l' ->].
    apply elem_of_app. right. apply list_elem_of_here.
  - by apply last_None in Hl.
Qed.

Lemma getitem_first_split (sep : ascii) (s : string) :
  ∃ x, getitem_first (split sep s) = Ok x ∧ x ∈ split sep s.
Proof.
  unfold getitem_first. pose proof (split_nonempty sep s) as Hne.
  destruct (split sep s) as [|x l]; [done|].
  exists x. split; [done|]. apply list_elem_of_here.
Qed.

Lemma get_game_name_ok (game_path : string) :
  ∃ name, get_game_name game_path = Ok name ∧
          has_char slash name = false ∧ has_char dot name = false.
Proof.
  unfold get_game_name.
  destruct (getitem_last_split slash game_path) as (base & -> & Hbase). simpl.
  destruct (getitem_first_split dot base) as (name & -> & Hname).
  exists name. split; [done|].
  destruct (split_parts slash game_path base Hbase) as [Hslash _].
  destruct (split_parts dot base name Hname) as [Hdot Hsub].
  split; [|done].
  destruct (has_char slash name) eqn:Hs; [|done].
  apply Hsub in Hs. congruence.
Qed.

(** X24. [get_game_name] fails on no path, and the name it returns holds
    neither a slash nor a dot. *)
Theorem get_game_name_total (game_path : string) :
  ∃ name, get_game_name game_path = Ok name ∧
          has_char slash name = false ∧ has_char dot name = false.
Proof. apply get_game_name_ok. Qed.

(** X25. The name of the game is read back from a path made of a directory,
    the name and an extension, when the name holds neither a slash nor a
    dot and the extension no slash; the directory may hold both. *)
Theorem get_game_name_of_path (directory name extension : string) :
  has_char slash name = false →
  has_char dot name = false →
  has_char slash extension = false →
  get_game_name (directory +:+ String slash (name +:+ String dot extension)) =
  Ok name.
Proof.
  intros Hs Hd He. unfold get_game_name.
  rewrite split_app.
  assert (Hbase : has_char slash (name +:+ String dot extension) = false).
  { rewrite has_char_app. simpl. by rewrite Hs, He. }
  rewrite (split_whole slash _ Hbase).
  unfold getitem_last. rewrite last_snoc. simpl.
  rewrite split_app, (split_whole dot name Hd). done.
Qed.

Lemma only_possible_spec (game_paths : list string) :
  ∃ kept, only_possible game_paths = Ok kept ∧
          sublist kept game_paths ∧
          ∀ p, p ∈ kept ↔
               p ∈ game_paths ∧
               ∃ name, get_game_name p = Ok name ∧ name ∈ possible_games.
Proof.
  induction game_paths as [|p rest (kept & Hk & Hsub & Hmem)].
  - exists []. split_and!; [done|done|]. intros p. split.
    + by intros ?%elem_of_nil.
    + by intros [?%elem_of_nil _].
  - destruct (get_game_name_ok p) as (name & Hname & _).
    simpl. rewrite Hname, Hk. simpl.
    destruct (bool_decide (name ∈ possible_games)) eqn:Hin.
    + apply bool_decide_eq_true in Hin.
      exists (p :: kept). split_and!; [done|by apply sublist_skip|].
      intros q. rewrite !elem_of_cons, Hmem. split.
      * intros [->|[? ?]]; [|by eauto]. split; [by left|]. eauto.
      * intros [[->|?] ?]; [by left|by right].
    + apply bool_decide_eq_false in Hin.
      exists kept. split_and!; [done|by apply sublist_cons|].
      intros q. rewrite elem_of_cons, Hmem. split.
      * intros [? ?]. split; [by right|done].
      * intros [[->|?] (n & Hn & Hposs)]; [|by eauto].
        rewrite Hname in Hn. injection Hn as <-. done.
Qed.

Lemma get_game_paths_ok (only_33 : bool) (globbed : list string) :
  ∃ kept, get_game_paths only_33 globbed = Ok kept.
Proof.
  destruct only_33; simpl; [|by eexists].
  destruct (only_possible_spec globbed) as (kept & Hk & _). by exists kept.
Qed.

(** X26. [get_game_paths] fails on no answer of [glob]. Without [only_33]
    it returns the answer as it is; with [only_33] it keeps, in their order,
    exactly the paths whose game name is one of the 33 listed names. *)
Theorem get_game_paths_spec (only_33 : bool) (globbed : list string) :
  ∃ kept, get_game_paths only_33 globbed = Ok kept ∧
          sublist kept globbed ∧
          ∀ p, p ∈ kept ↔
               p ∈ globbed ∧
               (only_33 = true →
                ∃ name, get_game_name p = Ok name ∧ name ∈ possible_games).
Proof.
  destruct only_33; simpl.
  - destruct (only_possible_spec globbed) as (kept & Hk & Hsub & Hmem).
    exists kept. split_and!; [done|done|]. intros p. rewrite Hmem. split.
    + intros [? ?]. split; [done|]. by intros _.
    + intros [? Hn]. split; [done|]. by apply Hn.
  - exists globbed. split_and!; [done|done|]. intros p. split.
    + intros ?. split; [done|]. intros [=].
    + by intros [? _].
Qed.

(** ** The results of the harness *)

Section MoreHarness.
Context {W : Type} `{Externals W} `{Harness W}.

Lemma sum_step_rewards_stepped (action : string) (st : St W) :
  logs_at (step (self st)) (self st) →
  total_reward (self st) = sum_step_rewards (trace st) →
  total_reward (self (stepped action st)) = sum_step_rewards (trace (stepped action st)).
Proof.
  intros (_ & Hr & _) Hsum. unfold stepped.
  destruct (env_step action (world st)) as [[[[o r] d] i] w'].
  unfold total_reward, sum_step_rewards in *. simpl.
  rewrite map_fold_insert_L.
  - rewrite Hsum. lia.
  - intros. lia.
  - apply not_elem_of_dom. rewrite Hr, elem_of_set_seq. lia.
Qed.

(** X27. The total reward that the harness reports,
    [sum(agent.rewards.values())], is the sum of the rewards that
    [env.step] returned in the episode, however far the episode got. *)
Theorem total_reward_is_sum_of_step_rewards (c : agent_class) (ms : option Z)
    (cfg : llm_config) (w : W) (fuel : nat) :
  total_reward (self (snd (run fuel (new c ms cfg w)))) =
  sum_step_rewards (trace (snd (run fuel (new c ms cfg w)))).
Proof.
  set (P := fun s : St W =>
              logs_at (step (self s)) (self s) ∧
              total_reward (self s) = sum_step_rewards (trace s)).
  assert (HP : P (snd (run fuel (new c ms cfg w)))); [|by destruct HP].
  apply run_invariant; unfold P; try done.
  - intros va s r s' [Hl Hs] Hch.
    apply choose_action_frame in Hch as ([h Hself] & Htr & _).
    rewrite Hself. split; [done|]. by destruct Htr as [-> | [req ->]].
  - intros a s [Hl Hs]. split; [by apply logs_at_stepped|].
    by apply sum_step_rewards_stepped.
  - intros l s [Hl Hs]. rewrite finish_eq. by destruct (l_info l).
  - split; [apply logs_at_new|].
    rewrite new_eq. by destruct (env_reset w) as [[o i] w'].
Qed.

Lemma make_agent_new (args : arguments) (w : W) (st : St W) :
  make_agent args w = Ok st →
  ∃ c cfg, st = new c (arg_max_steps args) cfg w.
Proof.
  unfold make_agent. intros Hm.
  repeat (case_match; simplify_eq); eauto.
Qed.

Lemma record_of_consistent (game_path : string) (a : agent) (max_score : Z)
    (rec : game_result) :
  logs_at (step a) a →
  record_of game_path a max_score = Ok rec →
  consistent rec.
Proof.
  intros Hl%logs_at_sizes Hrec. unfold record_of in Hrec.
  destruct (info a); [|done]. injection Hrec as <-.
  destruct Hl as (Ha & Hr & Ho). unfold consistent. simpl. lia.
Qed.

(** What a game that ends normally adds: one entry under the name of the
    game, and one write of the results so far. *)
Lemma play_game_ok (fuel : nat) (args : arguments) (game_path : string)
    (results results' : gmap string game_result) (hs hs' : HSt W) :
  play_game fuel args game_path results hs = (Some (Ok results'), hs') →
  ∃ name rec,
    get_game_name game_path = Ok name ∧ consistent rec ∧
    results' = <[name := rec]> results ∧
    h_written hs' = (output_file args, results') :: h_written hs.
Proof.
  unfold play_game. intros Hplay.
  destruct (make_agent args _) as [st0|e] eqn:Hmake; [|done].
  apply make_agent_new in Hmake as (c & cfg & ->).
  pose proof (logs_at_run fuel _ (logs_at_new c (arg_max_steps args) cfg
                (create_game game_path (h_world hs)))) as Hlogs.
  destruct (run fuel _) as [[[[]|e]|] st1]; simpl in *; try done.
  destruct (env_get_max_score (world st1)) as [max_score w2].
  destruct (record_of game_path (self st1) max_score) as [rec|e] eqn:Hrec; [|done].
  destruct (get_game_name game_path) as [name|e]; [|done].
  injection Hplay as <- <-. exists name, rec.
  split_and!; try done. by eapply record_of_consistent.
Qed.

(** A game that does not end normally writes nothing. *)
Lemma play_game_written (fuel : nat) (args : arguments) (game_path : string)
    (results : gmap string game_result) (hs : HSt W) :
  (∀ results', fst (play_game fuel args game_path results hs) ≠ Some (Ok results')) →
  h_written (snd (play_game fuel args game_path results hs)) = h_written hs.
Proof.
  unfold play_game. intros Hplay.
  destruct (make_agent args _) as [st0|e]; [|done].
  destruct (run fuel st0) as [[[[]|e]|] st1]; simpl in *; try done.
  destruct (env_get_max_score (world st1)) as [max_score w2].
  destruct (record_of _ _ _) as [rec|e]; [|done].
  destruct (get_game_name game_path) as [name|e]; [|done].
  by destruct (Hplay (<[name:=rec]> results)).
Qed.

Lemma games_loop_consistent (fuel : nat) (args : arguments)
    (game_paths : list string) :
  ∀ (results : gmap string game_result) (hs : HSt W),
    map_Forall (fun _ r => consistent r) results →
    Forall (fun x => map_Forall (fun _ r => consistent r) x.2) (h_written hs) →
    Forall (fun x => map_Forall (fun _ r => consistent r) x.2)
           (h_written (snd (games_loop fuel args game_paths results hs))).
Proof.
  induction game_paths as [|p rest IH]; intros results hs Hres Hw; simpl; [done|].
  destruct (play_game fuel args p results hs) as [[[results'|e]|] hs'] eqn:Hplay.
  - apply play_game_ok in Hplay as (name & rec & _ & Hrec & -> & Hw').
    assert (map_Forall (fun _ r => consistent r) (<[name:=rec]> results))
      by (by apply map_Forall_insert_2).
    apply IH; [done|]. rewrite Hw'. by apply Forall_cons.
  - simpl. replace hs' with (snd (play_game fuel args p results hs))
      by (by rewrite Hplay).
    rewrite play_game_written; [done|]. intros r. by rewrite Hplay.
  - simpl. replace hs' with (snd (play_game fuel args p results hs))
      by (by rewrite Hplay).
    rewrite play_game_written; [done|]. intros r. by rewrite Hplay.
Qed.

(** X28. Every record that [run_games] writes to the output file is
    consistent: the number of rewards equals the number of actions equals
    the number of steps, and the number of observations is one more,
    whatever the agent type, the games and the way [run_games] ends. *)
Theorem written_records_are_consistent (fuel : nat) (args : arguments) (w : W)
    (file name : string) (results : gmap string game_result) (r : game_result) :
  (file, results) ∈ h_written (snd (run_games fuel args w)) →
  results !! name = Some r →
  r_num_rewards r = r_num_actions r ∧
  r_num_actions r = r_steps r ∧
  r_num_observations r = r_steps r + 1.
Proof.
  intros Hin Hr. unfold run_games in Hin.
  destruct (glob w) as [globbed w0].
  destruct (get_game_paths_ok (only_33 args) globbed) as (paths & Hp).
  rewrite Hp in Hin.
  pose proof (games_loop_consistent fuel args paths ∅ (HState w0 [])
                (map_Forall_empty _) (Forall_nil_2 _)) as Hall.
  rewrite Forall_forall in Hall.
  apply (Hall _ Hin name r Hr).
Qed.

Lemma games_loop_ok (fuel : nat) (args : arguments) (game_paths : list string) :
  ∀ (results0 results : gmap string game_result) (hs0 hs : HSt W),
    games_loop fuel args game_paths results0 hs0 = (Some (Ok results), hs) →
    length (h_written hs) = length game_paths + length (h_written hs0) ∧
    (∀ name, is_Some (results !! name) ↔
             is_Some (results0 !! name) ∨
             ∃ p, p ∈ game_paths ∧ get_game_name p = Ok name) ∧
    (game_paths ≠ [] → head (h_written hs) = Some (output_file args, results)).
Proof.
  induction game_paths as [|p rest IH]; intros results0 results hs0 hs Hloop;
    simpl in Hloop.
  - injection Hloop as <- <-. split_and!; [done| |done].
    intros name. split; [by left|]. intros [?|(p & ?%elem_of_nil & _)]; done.
  - destruct (play_game fuel args p results0 hs0) as [[[results1|e]|] hs1] eqn:Hplay;
      try done.
    apply play_game_ok in Hplay as (name1 & rec & Hname & _ & -> & Hw1).
    pose proof Hloop as Hrest. apply IH in Hloop as (Hlen & Hdom & Hhead).
    rewrite Hw1 in Hlen. simpl in Hlen. split_and!.
    + simpl. lia.
    + intros name. rewrite Hdom, lookup_insert_is_Some. split.
      * intros [[<-|[_ ?]]|(q & Hq & Hn)].
        -- right. exists p. split; [apply list_elem_of_here|done].
        -- by left.
        -- right. exists q. split; [by apply list_elem_of_further|done].
      * intros [?|(q & [->|Hq]%elem_of_cons & Hn)].
        -- destruct (decide (name1 = name)); [by left; left|by left; right].
        -- left. left. congruence.
        -- right. by exists q.
    + intros _. destruct rest as [|q rest]; [|by apply Hhead].
      simpl in Hrest. injection Hrest as <- <-. by rewrite Hw1.
Qed.

(** X29. When [run_games] ends normally, the output file was written once
    per game, the last write holds the final results, and the results have
    an entry under exactly the names of the games that were played: two
    paths of the same name share one entry. *)
Theorem results_after_all_games (fuel : nat) (args : arguments) (w : W)
    (game_paths : list string) (results : gmap string game_result) (hs : HSt W) :
  get_game_paths (only_33 args) (fst (glob w)) = Ok game_paths →
  run_games fuel args w = (Some (Ok results), hs) →
  length (h_written hs) = length game_paths ∧
  (∀ name, is_Some (results !! name) ↔
           ∃ p, p ∈ game_paths ∧ get_game_name p = Ok name) ∧
  (game_paths ≠ [] → head (h_written hs) = Some (output_file args, results)).
Proof.
  unfold run_games. destruct (glob w) as [globbed w0]. simpl.
  intros -> Hloop. apply games_loop_ok in Hloop as (Hlen & Hdom & Hhead).
  simpl in Hlen. split_and!; [lia| |done].
  intros name. rewrite Hdom, lookup_empty. split.
  - intros [[x [=]]|?]. done.
  - by right.
Qed.

(** X30. An agent type that is none of the three names is found out only
    when there is a game to play: with no game [run_games] ends normally,
    having written nothing; otherwise it raises the [ValueError] that names
    the type, after it created the first game and before any episode. *)
Theorem unknown_agent_type (fuel : nat) (args : arguments) (w : W)
    (game_paths : list string) :
  agent_type args ≠ "RandomAgent" →
  agent_type args ≠ "WalkThroughAgent" →
  agent_type args ≠ "LLMAgent" →
  get_game_paths (only_33 args) (fst (glob w)) = Ok game_paths →
  run_games fuel args w =
  match game_paths with
  | [] => (Some (Ok ∅), HState (snd (glob w)) [])
  | game_path :: _ =>
      (Some (Raise (ValueError ("Unknown agent type: " +:+ agent_type args))),
       HState (create_game game_path (snd (glob w))) [])
  end.
Proof.
  intros H1 H2 H3. unfold run_games. destruct (glob w) as [globbed w0]. simpl.
  intros ->. destruct game_paths as [|p rest]; [done|].
  simpl. unfold play_game, make_agent.
  apply String.eqb_neq in H1, H2, H3. by rewrite H1, H2, H3.
Qed.

End MoreHarness.

(** ** The further properties on sample inputs *)

Section MoreSampleRuns.
Import Scripted Samples MoreSamples.

Lemma choose_action_is_legal_and_framed_witness :
  fst (choose_action ["go north"; "north"]
         (new RandomAgent None no_config two_steps)) = Ok "north" ∧
  "north" ∈ ["go north"; "north"].
Proof.
  split; [vm_compute; reflexivity|].
  destruct (choose_action_is_legal_and_framed ["go north"; "north"]
              (new RandomAgent None no_config two_steps)
              (snd (choose_action ["go north"; "north"]
                      (new RandomAgent None no_config two_steps)))
              (Ok "north")) as (Hmem & _); [vm_compute; reflexivity|].
  by apply Hmem.
Defined.

Lemma blank_reply_names_no_action_witness :
  message_content (posted ["north"; "south"] "West of House"
                     (new LLMAgent None (llm 10 false) blank_reply)) =
    Ok (JStr "   ") ∧
  strip "   " = EmptyString ∧
  fst (LLMAgent_choose_action ["north"; "south"]
         (new LLMAgent None (llm 10 false) blank_reply)) =
    Raise (ValueError
             ("No valid action found in LLM response and fallback_to_random is "
              +:+ "False. Raw response: ")).
Proof.
  split_and!; [vm_compute; reflexivity|reflexivity|].
  assert (Hx := blank_reply_names_no_action ["north"; "south"] "West of House" "   "
                  (new LLMAgent None (llm 10 false) blank_reply)).
  change (fallback_to_random
            (config (self (new LLMAgent None (llm 10 false) blank_reply))))
    with false in Hx.
  apply Hx; [vm_compute; reflexivity|vm_compute; reflexivity|reflexivity|discriminate].
Defined.

Lemma selection_without_fallback_witness :
  fallback_to_random (config (self (new LLMAgent None (llm 10 false) two_steps))) = false ∧
  message_content (posted ["open door"; "wait"] "West of House"
                     (new LLMAgent None (llm 10 false) two_steps)) =
    Ok (JStr "I will go north now") ∧
  fst (LLMAgent_choose_action ["open door"; "wait"]
         (new LLMAgent None (llm 10 false) two_steps)) =
    Raise (ValueError
             ("No valid action found in LLM response and fallback_to_random is "
              +:+ "False. Raw response: I will go north now")).
Proof.
  split_and!; [vm_compute; reflexivity|vm_compute; reflexivity|].
  destruct (selection_without_fallback ["open door"; "wait"] "West of House"
              (new LLMAgent None (llm 10 false) two_steps)) as [_ Hnone];
    [vm_compute; reflexivity|vm_compute; reflexivity|].
  apply (Hnone "I will go north now").
  - vm_compute; reflexivity.
  - vm_compute; reflexivity.
  - intros a Ha. apply elem_of_cons in Ha as [->|Ha]; [vm_compute; reflexivity|].
    apply elem_of_cons in Ha as [->|Ha]; [vm_compute; reflexivity|].
    by apply elem_of_nil in Ha.
  - intros a Ha. rewrite <- re_search_whole_word.
    apply elem_of_cons in Ha as [->|Ha]; [vm_compute; discriminate|].
    apply elem_of_cons in Ha as [->|Ha]; [vm_compute; discriminate|].
    by apply elem_of_nil in Ha.
Defined.

Lemma empty_action_shadows_later_actions_witness :
  message_content (posted ["open door"; ""; "wait"] "West of House"
                     (new LLMAgent None (llm 10 false) wait_reply)) =
    Ok (JStr "I think I should wait here") ∧
  whole_word_match "wait" "I think I should wait here" ∧
  fst (LLMAgent_choose_action ["open door"; ""; "wait"]
         (new LLMAgent None (llm 10 false) wait_reply)) = Ok "".
Proof.
  split_and!; [vm_compute; reflexivity| |].
  - apply re_search_whole_word. vm_compute; reflexivity.
  - apply (empty_action_shadows_later_actions
             ["open door"; ""; "wait"] ["open door"] ["wait"] "West of House"
             "I think I should wait here").
    + vm_compute; reflexivity.
    + vm_compute; reflexivity.
    + reflexivity.
    + vm_compute; reflexivity.
    + intros a Ha. apply elem_of_cons in Ha as [->|Ha]; [vm_compute; reflexivity|].
      by apply elem_of_nil in Ha.
    + exists "I"%char. split; [by left|]. apply is_word_spec. reflexivity.
    + intros a Ha. rewrite <- re_search_whole_word.
      apply elem_of_cons in Ha as [->|Ha]; [vm_compute; discriminate|].
      by apply elem_of_nil in Ha.
Defined.

Lemma selection_with_fallback_witness :
  fallback_to_random (config (self (new LLMAgent None (llm 10 true) offline))) = true ∧
  ∃ action, action ∈ ["north"; "south"] ∧
            fst (LLMAgent_choose_action ["north"; "south"]
                   (new LLMAgent None (llm 10 true) offline)) = Ok action.
Proof.
  split; [vm_compute; reflexivity|].
  apply (selection_with_fallback ["north"; "south"] "West of House"
           (new LLMAgent None (llm 10 true) offline));
    [vm_compute; reflexivity|discriminate|vm_compute; reflexivity|].
  intros e. vm_compute. intros [= <-]. reflexivity.
Defined.

Lemma trimmed_history_is_bounded_witness :
  (1 ≤ 1)%Z ∧
  (Z.of_nat (length (trim 1 (chat_history (self (snd (run 1
      (new LLMAgent None (llm 1 true) two_steps))))))) ≤ 3 * 1 + 1)%Z.
Proof.
  split; [lia|]. apply (trimmed_history_is_bounded 1). lia.
Defined.

Lemma trim_keeps_newest_turns_witness :
  (1 ≤ 1)%Z ∧
  ∃ evicted kept,
    [Message "user" "a"; Message "assistant" "b"; Message "user" "c";
     Message "user" "d"] = evicted ++ kept ∧
    trim 1 (system_message :: [Message "user" "a"; Message "assistant" "b";
                               Message "user" "c"; Message "user" "d"]) =
      system_message :: kept ∧
    Z.of_nat (length kept) = Z.min (Z.of_nat 4) (3 * 1).
Proof.
  split; [lia|].
  apply (trim_keeps_newest_turns 1
           [Message "user" "a"; Message "assistant" "b"; Message "user" "c";
            Message "user" "d"]). lia.
Defined.

Lemma trim_twice_witness :
  (0 ≤ 0)%Z ∧
  trim 0 (trim 0 [Message "user" "a"; Message "assistant" "b"]) =
  trim 0 [Message "user" "a"; Message "assistant" "b"].
Proof.
  split; [lia|]. apply (trim_twice 0). lia.
Defined.

Lemma stored_history_is_bounded_witness :
  (1 ≤ max_chat_history_size (llm 1 true))%Z ∧
  (Z.of_nat (length (chat_history (self (snd (run 5
      (new LLMAgent None (llm 1 true) two_steps))))))
   ≤ 3 * max_chat_history_size (llm 1 true) + 4)%Z.
Proof.
  split; [vm_compute; discriminate|].
  apply (stored_history_is_bounded None (llm 1 true) two_steps 5).
  vm_compute; discriminate.
Defined.

Lemma no_step_after_done_witness :
  steps_done (trace (snd (run 5 (new RandomAgent None no_config one_step_game)))) =
    [true] ∧
  Forall (fun d => d = false)
         (tail (steps_done (trace (snd (run 5
            (new RandomAgent None no_config one_step_game)))))).
Proof.
  split; [vm_compute; reflexivity|].
  apply (no_step_after_done RandomAgent None no_config one_step_game 5).
  discriminate.
Defined.

(** The walkthrough agent is the contrast: it steps on after [done]. *)
Example walkthrough_steps_after_done :
  steps_done (trace (snd (run 5 (new WalkThroughAgent None no_config
                                    one_step_game)))) = [false; true].
Proof. vm_compute; reflexivity. Qed.

Lemma every_step_is_legal_witness :
  RandomAgent ≠ WalkThroughAgent ∧
  legal_steps (trace (snd (run 5 (new RandomAgent None no_config two_steps)))).
Proof.
  split; [discriminate|].
  apply (every_step_is_legal RandomAgent None no_config two_steps 5). discriminate.
Defined.

Lemma negative_max_steps_witness :
  (-1 < 0)%Z ∧
  run 5 (new RandomAgent (Some (-1)%Z) no_config two_steps) =
  (Some (Raise UnboundLocalError), new RandomAgent (Some (-1)%Z) no_config two_steps).
Proof.
  split; [lia|].
  apply (negative_max_steps RandomAgent (-1) no_config two_steps 5);
    [discriminate|lia].
Defined.

Lemma base_agent_cannot_run_witness :
  fst (env_get_valid_actions (world (new Agent_ None no_config two_steps))) ≠ [] ∧
  fst (run 1 (new Agent_ None no_config two_steps)) =
    Some (Raise NotImplementedError).
Proof.
  split; [vm_compute; discriminate|].
  destruct (base_agent_cannot_run None no_config two_steps 0) as (Hout & _);
    [discriminate|vm_compute; discriminate|exact Hout].
Defined.

Lemma walkthrough_is_replayed_witness :
  fst (env_get_walkthrough (snd (env_reset two_steps))) = ["north"; "wait"] ∧
  fst (run 0 (new WalkThroughAgent (Some 1%Z) no_config two_steps)) = Some (Ok tt) ∧
  actions (self (snd (run 0 (new WalkThroughAgent (Some 1%Z) no_config two_steps))))
    !! 1 = Some "wait".
Proof.
  split; [reflexivity|].
  destruct (walkthrough_is_replayed (Some 1%Z) no_config two_steps 0)
    as (Hout & _ & Hact); [vm_compute; discriminate|].
  split; [exact Hout|]. rewrite Hact. reflexivity.
Defined.

Lemma empty_walkthrough_witness :
  fst (env_get_walkthrough (snd (env_reset dead_end))) = [] ∧
  fst (run 0 (new WalkThroughAgent None no_config dead_end)) =
    Some (Raise UnboundLocalError).
Proof.
  split; [reflexivity|].
  destruct (empty_walkthrough None no_config dead_end 0) as (Hout & _);
    [reflexivity|exact Hout].
Defined.

Lemma random_agent_outcomes_witness :
  run 5 (new RandomAgent None no_config dead_end) =
    (Some (Raise UnboundLocalError),
     snd (run 5 (new RandomAgent None no_config dead_end))) ∧
  ((@Raise unit UnboundLocalError = Ok tt ∧
    1 ≤ step (self (snd (run 5 (new RandomAgent None no_config dead_end))))) ∨
   (@Raise unit UnboundLocalError = Raise UnboundLocalError ∧
    step (self (snd (run 5 (new RandomAgent None no_config dead_end)))) = 0)).
Proof.
  split; [vm_compute; reflexivity|].
  apply (random_agent_outcomes None no_config dead_end 5).
  vm_compute; reflexivity.
Defined.

Lemma get_game_name_of_path_witness :
  has_char slash "zork1" = false ∧ has_char dot "zork1" = false ∧
  has_char slash "z5" = false ∧
  get_game_name "./z-machine-games-master/jericho-game-suite/zork1.z5" = Ok "zork1".
Proof.
  split_and!; [reflexivity..|].
  apply (get_game_name_of_path "./z-machine-games-master/jericho-game-suite"
           "zork1" "z5"); reflexivity.
Defined.

Lemma written_records_are_consistent_witness :
  ∃ results r,
    ("results.json", results) ∈ h_written (snd (run_games 5 random_args two_steps)) ∧
    results !! "zork1" = Some r ∧
    r_num_rewards r = r_num_actions r ∧
    r_num_actions r = r_steps r ∧
    r_num_observations r = r_steps r + 1.
Proof.
  destruct (h_written (snd (run_games 5 random_args two_steps)))
    as [|[file results] rest] eqn:Hw; [vm_compute in Hw; discriminate|].
  pose proof Hw as Hw'. vm_compute in Hw'. injection Hw' as Hfile Hresults Hrest.
  destruct (results !! "zork1") as [r|] eqn:Hr;
    [|rewrite <- Hresults in Hr; vm_compute in Hr; discriminate].
  assert (Hin : ("results.json", results)
                ∈ h_written (snd (run_games 5 random_args two_steps))).
  { rewrite Hw, <- Hfile. apply list_elem_of_here. }
  exists results, r. rewrite <- Hw. split_and!; [exact Hin|exact Hr|..];
    apply (written_records_are_consistent 5 random_args two_steps
             "results.json" "zork1" results r Hin Hr).
Defined.

Lemma results_after_all_games_witness :
  get_game_paths (only_33 random_args) (fst (glob two_steps)) =
    Ok ["./z-machine-games-master/jericho-game-suite/zork1.z5"] ∧
  ∃ results,
    fst (run_games 5 random_args two_steps) = Some (Ok results) ∧
    length (h_written (snd (run_games 5 random_args two_steps))) = 1 ∧
    head (h_written (snd (run_games 5 random_args two_steps))) =
      Some ("results.json", results).
Proof.
  split; [vm_compute; reflexivity|].
  destruct (run_games 5 random_args two_steps) as [out hs] eqn:Hrun.
  destruct out as [[results|e]|]; try (vm_compute in Hrun; discriminate).
  exists results.
  destruct (results_after_all_games 5 random_args two_steps
              ["./z-machine-games-master/jericho-game-suite/zork1.z5"] results hs)
    as (Hlen & _ & Hhead); [vm_compute; reflexivity|exact Hrun|].
  split_and!; [reflexivity|exact Hlen|]. by apply Hhead.
Defined.

Lemma unknown_agent_type_witness :
  agent_type unknown_args ≠ "RandomAgent" ∧
  fst (run_games 5 unknown_args two_steps) =
    Some (Raise (ValueError "Unknown agent type: GreedyAgent")).
Proof.
  split; [discriminate|].
  rewrite (unknown_agent_type 5 unknown_args two_steps
             ["./z-machine-games-master/jericho-game-suite/zork1.z5"]);
    [reflexivity|discriminate..|vm_compute; reflexivity].
Defined.

End MoreSampleRuns.
